(** * Native-contract descriptors, syscall dispatch and the ledger view
      of the interop context (package [interop] of neo-go)

    A shallow embedding of [pkg/core/interop/context.go]: the registration
    of native methods ([AddMethod]), the hardfork-specific materialisation
    ([buildHFSpecificMD]), method lookup ([GetMethod], [GetMethodByOffset]),
    syscall dispatch ([GetFunction], [SyscallHandler]) and the ledger view
    of a context ([BlockHeight], [CurrentBlockHash], [GetBlock],
    [IsHardforkEnabled], [IsHardforkActivation]).

    Go's [int] and slice lengths are modelled by [nat] and [Z] without
    wrap-around (a slice never holds 2^63 elements); [uint32] and [int64]
    arithmetic is written with its wrap-around. The descriptors are first
    modelled as values; module [Ptr] models materialisation once more
    with the [manifest.Method] descriptors behind pointers, and the two
    are shown to agree. *)

From Stdlib Require Import ZArith List String Ascii Bool Lia OrdersEx.
From stdpp Require Import base gmap strings list sorting.
From Equations Require Import Equations.
Import ListNotations.
Local Open Scope Z_scope.

(** ** Machine integers *)

Module U32.
Definition modulus : Z := 2 ^ 32.
Definition max : Z := modulus - 1.
Definition wrap (z : Z) : Z := z mod modulus.
Definition add (a b : Z) : Z := wrap (a + b).
Definition sub (a b : Z) : Z := wrap (a - b).
End U32.

Module I64.
Definition wrap (z : Z) : Z := (z + 2 ^ 63) mod 2 ^ 64 - 2 ^ 63.
Definition mul (a b : Z) : Z := wrap (a * b).
End I64.

(** ** Go's standard library: [sort.Search] and string comparison *)

(** The loop of [sort.Search]: [i, j := 0, n; for i < j { h := int(uint(i+j) >> 1);
    if !f(h) { i = h + 1 } else { j = h } }; return i]. *)
Equations? Search_loop (f : nat -> bool) (i j : nat) : nat by wf (j - i)%nat lt :=
Search_loop f i j with lt_dec i j => {
  | left _ =>
      if negb (f ((i + j) / 2)%nat)
      then Search_loop f ((i + j) / 2 + 1)%nat j
      else Search_loop f i ((i + j) / 2)%nat
  | right _ => i }.
Proof.
  all: change (fst (Nat.divmod (i + j) 1 0 1)) with ((i + j) / 2)%nat;
       pose proof (Nat.div_mod_eq (i + j) 2);
       pose proof (Nat.mod_upper_bound (i + j) 2);
       lia.
Qed.

Definition Search (n : nat) (f : nat -> bool) : nat := Search_loop f 0%nat n.

(** Go compares strings byte by byte; [s >= t] and [strings.Compare]. *)
Definition string_ge (s t : string) : bool :=
  match String_as_OT.compare s t with Lt => false | _ => true end.

Definition strings_Compare (s t : string) : Z :=
  match String_as_OT.compare s t with Lt => -1 | Eq => 0 | Gt => 1 end.

(** ** Collaborating packages *)

Module config.
(** [type Hardfork byte]. *)
Definition Hardfork : Type := Z.

(** Modelled from the spec: [config.Hardfork.Cmp], whose source is
    missing. The spec calls it the comparator of hardforks, older
    hardforks being smaller: a three-way comparison of the two values. *)
Definition Cmp (hf other : Hardfork) : Z :=
  if hf =? other then 0 else if hf <? other then -1 else 1.
End config.

Module opcode.
(** Modelled from the spec: the opcode package, whose source is missing.
    The spec names the three instructions of a stub; these are their
    NeoVM bytes. *)
Definition PUSHINT8 : Z := 0.
Definition RET : Z := 64.
Definition SYSCALL : Z := 65.
End opcode.

Module interopnames.
Definition SystemContractCallNative : string := "System.Contract.CallNative".
End interopnames.

Module callflag.
(** Modelled from the spec: the callflag package, whose source is
    missing. The spec lists the capability bits and their unions, and
    reads [cf.Has(f)] as [(cf & f) == f]. *)
Definition CallFlag : Type := Z.
Definition ReadStates : CallFlag := 1.
Definition WriteStates : CallFlag := 2.
Definition AllowCall : CallFlag := 4.
Definition AllowNotify : CallFlag := 8.
Definition States : CallFlag := Z.lor ReadStates WriteStates.
Definition ReadOnly : CallFlag := Z.lor ReadStates AllowCall.
Definition All : CallFlag := Z.lor (Z.lor States AllowCall) AllowNotify.
Definition NoneFlag : CallFlag := 0.
Definition Has (cf f : CallFlag) : bool := Z.land cf f =? f.
End callflag.

Module manifest.
(** [manifest.Parameter]; the name is a reserved word here. *)
Record Param : Type := mkParam {
  PName : string;
  PType : Z }.

(** [manifest.Method]. *)
Record Method : Type := mkMethod {
  Name : string;
  Offset : Z;
  Params : list Param;
  ReturnType : Z;
  Safe : bool }.

Definition set_Offset (m : Method) (off : Z) : Method :=
  {| Name := Name m; Offset := off; Params := Params m;
     ReturnType := ReturnType m; Safe := Safe m |}.

Definition set_Safe (m : Method) (s : bool) : Method :=
  {| Name := Name m; Offset := Offset m; Params := Params m;
     ReturnType := ReturnType m; Safe := s |}.

(** [manifest.Event]. *)
Record Event : Type := mkEvent {
  EName : string;
  EParams : list Param }.

(** The part of [manifest.Manifest] that materialisation fills in. *)
Record Manifest : Type := mkManifest {
  MName : string;
  ABIMethods : list Method;
  ABIEvents : list Event }.

Definition DefaultManifest (name : string) : Manifest :=
  {| MName := name; ABIMethods := []; ABIEvents := [] |}.
End manifest.

Module emit.
(** Modelled from the spec: the emit package, whose source is missing.
    The spec fixes the bytes of a stub: [emit.Int(w, 0)] writes
    [PUSHINT8 0x00] (two bytes, the opcode and the one-byte operand),
    [emit.Syscall] writes the [SYSCALL] opcode and the 32-bit id of the
    name in little-endian order (five bytes), [emit.Opcodes] writes the
    opcodes given. The writer is the list of bytes written so far;
    writing to a buffer does not fail, so [w.Err] stays nil. *)
Definition le32 (id : Z) : list Z :=
  [ id mod 256; (id / 256) mod 256; (id / 65536) mod 256; (id / 16777216) mod 256 ].

Definition Int (w : list Z) (i : Z) : list Z := w ++ [opcode.PUSHINT8; i mod 256].

Definition Syscall (ToID : string -> Z) (w : list Z) (api : string) : list Z :=
  w ++ opcode.SYSCALL :: le32 (ToID api).

Definition Opcodes (w : list Z) (ops : list Z) : list Z := w ++ ops.

(** Reading back a [SYSCALL] instruction at an offset of a script. *)
Definition decodeSyscall (script : list Z) (off : nat) : option Z :=
  match drop off script with
  | op :: b0 :: b1 :: b2 :: b3 :: _ =>
      if op =? opcode.SYSCALL
      then Some (b0 + 256 * b1 + 65536 * b2 + 16777216 * b3)
      else None
  | _ => None
  end.
End emit.

Module vm.
(** Modelled from the spec: the vm package, whose source is missing. Of
    the VM the dispatcher reads the call flags of the current frame and
    charges gas against the budget; a negative limit is the unbounded
    budget set by [initVM]. [AddGas] adds to the gas consumed and reports
    whether the budget still holds. *)
Record VM : Type := mkVM {
  gasConsumed : Z;
  GasLimit : Z;
  callFlags : callflag.CallFlag }.

Definition GetCallFlags (v : VM) : callflag.CallFlag := callFlags v.

Definition AddGas (v : VM) (gas : Z) : VM * bool :=
  let consumed := I64.wrap (gasConsumed v + gas) in
  ({| gasConsumed := consumed; GasLimit := GasLimit v; callFlags := callFlags v |},
   (GasLimit v <? 0) || (consumed <=? GasLimit v)).
End vm.

(** ** Descriptors of native contracts *)

(** The Go function value of a native method, by handle. *)
Definition Method : Type := nat.

Record HFSpecificMethodAndPrice : Type := mkHFSpecificMethodAndPrice {
  Func : Method;
  MD : manifest.Method;
  CPUFee : Z;
  StorageFee : Z;
  SyscallOffset : Z;
  RequiredFlags : callflag.CallFlag }.

(** [MethodAndPrice] embeds [HFSpecificMethodAndPrice]. *)
Record MethodAndPrice : Type := mkMethodAndPrice {
  HFSpecific : HFSpecificMethodAndPrice;
  ActiveFrom : option config.Hardfork }.

Record HFSpecificEvent : Type := mkHFSpecificEvent {
  EventMD : manifest.Event }.

Record Event : Type := mkEvent {
  EventHFSpecific : HFSpecificEvent;
  EventActiveFrom : option config.Hardfork }.

(** [nef.File], without the magic and the checksum. *)
Record NEF : Type := mkNEF {
  Compiler : string;
  Tokens : list Z;
  Script : list Z }.

Record ContractBase : Type := mkContractBase {
  BaseID : Z;
  BaseHash : Z;
  BaseNEF : NEF;
  BaseManifest : manifest.Manifest }.

Record HFSpecificContractMD : Type := mkHFSpecificContractMD {
  Base : ContractBase;
  HFMethods : list HFSpecificMethodAndPrice;
  HFEvents : list HFSpecificEvent }.

Record ContractMD : Type := mkContractMD {
  ID : Z;
  Hash : Z;
  Name : string;
  Methods : list MethodAndPrice;
  Events : list Event;
  ActiveHFs : gset Z;
  mdCache : gmap Z HFSpecificContractMD;
  onManifestConstruction : option (manifest.Manifest -> manifest.Manifest) }.

Definition methodName (m : HFSpecificMethodAndPrice) : string := manifest.Name (MD m).
Definition paramCount (m : HFSpecificMethodAndPrice) : nat :=
  length (manifest.Params (MD m)).

Definition set_Methods (c : ContractMD) (ms : list MethodAndPrice) (hfs : gset Z) : ContractMD :=
  {| ID := ID c; Hash := Hash c; Name := Name c; Methods := ms; Events := Events c;
     ActiveHFs := hfs; mdCache := mdCache c;
     onManifestConstruction := onManifestConstruction c |}.

Definition set_Events (c : ContractMD) (es : list Event) (hfs : gset Z) : ContractMD :=
  {| ID := ID c; Hash := Hash c; Name := Name c; Methods := Methods c; Events := es;
     ActiveHFs := hfs; mdCache := mdCache c;
     onManifestConstruction := onManifestConstruction c |}.

Definition set_mdCache (c : ContractMD) (cache : gmap Z HFSpecificContractMD) : ContractMD :=
  {| ID := ID c; Hash := Hash c; Name := Name c; Methods := Methods c; Events := Events c;
     ActiveHFs := ActiveHFs c; mdCache := cache;
     onManifestConstruction := onManifestConstruction c |}.

(** [md.MD = desc] followed by the write of [desc.Safe] through the pointer. *)
Definition attach (md : MethodAndPrice) (desc : manifest.Method) : MethodAndPrice :=
  {| HFSpecific :=
       {| Func := Func (HFSpecific md); MD := desc;
          CPUFee := CPUFee (HFSpecific md); StorageFee := StorageFee (HFSpecific md);
          SyscallOffset := SyscallOffset (HFSpecific md);
          RequiredFlags := RequiredFlags (HFSpecific md) |};
     ActiveFrom := ActiveFrom md |}.

(** The cache key: [var key config.Hardfork; if hf != nil { key = *hf }]. *)
Definition cacheKey (hf : option config.Hardfork) : Z :=
  match hf with Some h => h | None => 0 end.

(** The test of [buildHFSpecificMD] on a method or an event:
    [ActiveFrom == nil || (hf != nil && ActiveFrom.Cmp(hf) >= 0)], both
    pointers dereferenced in the comparison. *)
Definition isActive (activeFrom hf : option config.Hardfork) : bool :=
  match activeFrom with
  | None => true
  | Some a =>
      match hf with
      | None => false
      | Some h => config.Cmp a h >=? 0
      end
  end.

(** The predicate of the search in [AddMethod]: the method at [i] goes
    after the one being added. *)
Definition insertBefore (desc : manifest.Method) (ms : list MethodAndPrice) (i : nat) : bool :=
  match ms !! i with
  | Some e =>
      let md := MD (HFSpecific e) in
      if negb (String.eqb (manifest.Name md) (manifest.Name desc))
      then string_ge (manifest.Name md) (manifest.Name desc)
      else (length (manifest.Params desc) <? length (manifest.Params md))%nat
  | None => false
  end.

(** [AddMethod]; the slice grows by one and the tail moves one place up. *)
Definition AddMethod (c : ContractMD) (md : MethodAndPrice) (desc : manifest.Method) : ContractMD :=
  let desc := manifest.set_Safe desc
    (Z.land (RequiredFlags (HFSpecific md)) (Z.lxor callflag.All callflag.ReadOnly) =? 0) in
  let md := attach md desc in
  let index := Search (length (Methods c)) (insertBefore desc (Methods c)) in
  set_Methods c
    (take index (Methods c) ++ md :: drop index (Methods c))
    (match ActiveFrom md with Some h => {[h]} ∪ ActiveHFs c | None => ActiveHFs c end).

Definition AddEvent (c : ContractMD) (md : Event) : ContractMD :=
  set_Events c (Events c ++ [md])
    (match EventActiveFrom md with Some h => {[h]} ∪ ActiveHFs c | None => ActiveHFs c end).

(** The state of the first loop of [buildHFSpecificMD]: the writer, the
    ABI entries and the method table collected so far. *)
Definition buildState : Type :=
  (list Z * list manifest.Method * list HFSpecificMethodAndPrice)%type.

Definition GetMethodByOffset (c : HFSpecificContractMD) (offset : Z)
  : option HFSpecificMethodAndPrice :=
  List.find (fun m => SyscallOffset m =? offset) (HFMethods c).

(** The predicate of the search in [GetMethod]. *)
Definition methodAtOrAfter (name : string) (paramCount : Z)
  (ms : list HFSpecificMethodAndPrice) (i : nat) : bool :=
  match ms !! i with
  | Some md =>
      let res := strings_Compare name (manifest.Name (MD md)) in
      if (res =? -1) || (res =? 1)
      then res =? -1
      else paramCount <=? Z.of_nat (length (manifest.Params (MD md)))
  | None => false
  end.

Definition GetMethod (c : HFSpecificContractMD) (name : string) (paramCount : Z)
  : option HFSpecificMethodAndPrice :=
  let index := Search (length (HFMethods c)) (methodAtOrAfter name paramCount (HFMethods c)) in
  if (index <? length (HFMethods c))%nat then
    match HFMethods c !! index with
    | Some md =>
        if String.eqb (manifest.Name (MD md)) name
           && ((paramCount =? -1) || (Z.of_nat (length (manifest.Params (MD md))) =? paramCount))
        then Some md
        else None
    | None => None
    end
  else None.

Section Materialise.
(** [interopnames.ToID], the 32-bit id of a syscall name (the first four
    bytes of its sha256), and [state.CreateNativeContractHash] belong to
    other packages; the definitions below take them as they are. *)
Variable ToID : string -> Z.
Variable CreateNativeContractHash : string -> Z.

Definition NewContractMD (name : string) (id : Z)
  (onManifest : option (manifest.Manifest -> manifest.Manifest)) : ContractMD :=
  {| ID := id; Hash := CreateNativeContractHash name; Name := name;
     Methods := []; Events := []; ActiveHFs := ∅; mdCache := ∅;
     onManifestConstruction := onManifest |}.

(** One turn of [for i := range c.Methods]. *)
Definition buildMethod (hf : option config.Hardfork) (st : buildState) (m : MethodAndPrice)
  : buildState :=
  let '(w, abiMethods, methods) := st in
  if negb (isActive (ActiveFrom m) hf) then st
  else
    let md := manifest.set_Offset (MD (HFSpecific m)) (Z.of_nat (length w)) in
    let w := emit.Int w 0 in
    let syscallOffset := Z.of_nat (length w) in
    let w := emit.Syscall ToID w interopnames.SystemContractCallNative in
    let w := emit.Opcodes w [opcode.RET] in
    (w, abiMethods ++ [md],
     methods ++ [ {| Func := Func (HFSpecific m); MD := md;
                     CPUFee := CPUFee (HFSpecific m); StorageFee := StorageFee (HFSpecific m);
                     SyscallOffset := syscallOffset;
                     RequiredFlags := RequiredFlags (HFSpecific m) |} ]).

(** One turn of [for i := range c.Events]. *)
Definition buildEvent (hf : option config.Hardfork)
  (st : list manifest.Event * list HFSpecificEvent) (e : Event)
  : list manifest.Event * list HFSpecificEvent :=
  if negb (isActive (EventActiveFrom e) hf) then st
  else (st.1 ++ [EventMD (EventHFSpecific e)], st.2 ++ [EventHFSpecific e]).

(** [buildHFSpecificMD]: the descriptor built and the contract with its
    cache updated. *)
Definition buildHFSpecificMD (c : ContractMD) (hf : option config.Hardfork)
  : HFSpecificContractMD * ContractMD :=
  let '(w, abiMethods, methods) := fold_left (buildMethod hf) (Methods c) ([], [], []) in
  let '(abiEvents, events) := fold_left (buildEvent hf) (Events c) ([], []) in
  let nf := {| Compiler := "neo-core-v3.0"; Tokens := []; Script := w |} in
  let m := manifest.DefaultManifest (Name c) in
  let m := {| manifest.MName := manifest.MName m;
              manifest.ABIMethods := abiMethods;
              manifest.ABIEvents := abiEvents |} in
  let m := match onManifestConstruction c with Some cb => cb m | None => m end in
  let md := {| Base := {| BaseID := ID c; BaseHash := Hash c; BaseNEF := nf; BaseManifest := m |};
               HFMethods := methods; HFEvents := events |} in
  (md, set_mdCache c (<[cacheKey hf := md]> (mdCache c))).

(** [HFSpecificContractMD]: the cached descriptor, or a fresh build. *)
Definition HFSpecificContractMD_of (c : ContractMD) (hf : option config.Hardfork)
  : HFSpecificContractMD * ContractMD :=
  match mdCache c !! cacheKey hf with
  | Some md => (md, c)
  | None => buildHFSpecificMD c hf
  end.

(** [materialise(c, H)] of the specification. *)
Definition materialise (c : ContractMD) (hf : option config.Hardfork) : HFSpecificContractMD :=
  (buildHFSpecificMD c hf).1.
End Materialise.

(** ** The invocation context *)

Inductive error : Type :=
| ErrSyscallNotFound
| ErrMissingCallFlags (cf required : callflag.CallFlag)
| ErrInsufficientGas
| ErrKeyNotFound
| ErrOther (msg : string).

(** What a Go call yields when it may dereference a nil pointer. *)
Inductive outcome (A : Type) : Type :=
| Returns (a : A)
| Panics.
Arguments Returns {A} a.
Arguments Panics {A}.

Module block.
(** [block.Block], by the fields the context reads. *)
Record Block : Type := mkBlock {
  Index : Z;
  Nonce : Z }.
End block.

(** The [Ledger] interface; [GetBlock] yields a block or an error. *)
Record Ledger : Type := mkLedger {
  LedgerBlockHeight : Z;
  LedgerCurrentBlockHash : Z;
  LedgerGetBlock : Z -> block.Block + error;
  LedgerGetHeaderHash : Z -> Z }.

(** [Context]. The table [Functions] is kept beside this record, because
    its handlers take the context as their argument; [Block] is [None]
    for the nil pointer. The container, the DAO, the logger, the natives
    and the hooks play no part in the functions below and are left out. *)
Record Context : Type := mkContext {
  Chain : Ledger;
  Network : Z;
  Hardforks : gmap string Z;
  Block : option block.Block;
  VM : vm.VM;
  Notifications : list (Z * string);
  baseExecFee : Z;
  baseStorageFee : Z }.

Definition set_VM (ic : Context) (v : vm.VM) : Context :=
  {| Chain := Chain ic; Network := Network ic; Hardforks := Hardforks ic;
     Block := Block ic; VM := v; Notifications := Notifications ic;
     baseExecFee := baseExecFee ic; baseStorageFee := baseStorageFee ic |}.

(** [Function]; a handler changes the context and may fail. The fields
    carry an [F] because [ID], [Name], [Func] and [RequiredFlags] are
    fields of the descriptors above. *)
Record Function : Type := mkFunction {
  FID : Z;
  FName : string;
  FFunc : Context -> option error * Context;
  FParamCount : Z;
  FPrice : Z;
  FRequiredFlags : callflag.CallFlag }.

Definition BaseExecFee (ic : Context) : Z := baseExecFee ic.
Definition BaseStorageFee (ic : Context) : Z := baseStorageFee ic.

Definition GetFunction (fs : list Function) (id : Z) : option Function :=
  let n := Search (length fs)
             (fun i => match fs !! i with Some f => FID f >=? id | None => false end) in
  if (n <? length fs)%nat then
    match fs !! n with
    | Some f => if FID f =? id then Some f else None
    | None => None
    end
  else None.

(** What a dispatch did to the VM budget and to the handlers, in order:
    a ghost record beside the result. *)
Inductive action : Type :=
| Charged (gas : Z)
| Invoked (id : Z).

Definition SyscallHandler (fs : list Function) (ic : Context) (id : Z)
  : option error * Context * list action :=
  match GetFunction fs id with
  | None => (Some ErrSyscallNotFound, ic, [])
  | Some f =>
      let cf := vm.GetCallFlags (VM ic) in
      if negb (callflag.Has cf (FRequiredFlags f))
      then (Some (ErrMissingCallFlags cf (FRequiredFlags f)), ic, [])
      else
        let gas := I64.mul (FPrice f) (BaseExecFee ic) in
        let '(v, ok) := vm.AddGas (VM ic) gas in
        let ic := set_VM ic v in
        if negb ok
        then (Some ErrInsufficientGas, ic, [Charged gas])
        else let '(res, ic) := FFunc f ic in (res, ic, [Charged gas; Invoked (FID f)])
  end.

(** ** The ledger view *)

Definition BlockHeight (ic : Context) : Z :=
  match Block ic with
  | Some b => U32.sub (block.Index b) 1
  | None => LedgerBlockHeight (Chain ic)
  end.

Definition CurrentBlockHash (ic : Context) : Z :=
  match Block ic with
  | Some b => LedgerGetHeaderHash (Chain ic) (U32.sub (block.Index b) 1)
  | None => LedgerCurrentBlockHash (Chain ic)
  end.

Definition GetBlock (ic : Context) (hash : Z) : block.Block + error :=
  match LedgerGetBlock (Chain ic) hash with
  | inr err => inr err
  | inl b =>
      if block.Index b >? BlockHeight ic then inr ErrKeyNotFound else inl b
  end.

Section Hardforks.
(** [config.Hardfork.String], the name under which a hardfork is listed in
    the protocol configuration, belongs to package config and is taken as
    it is. *)
Variable HardforkString : config.Hardfork -> string.

Definition IsHardforkEnabled (ic : Context) (hf : config.Hardfork) : bool :=
  match Hardforks ic !! HardforkString hf with
  | Some height => U32.add (BlockHeight ic) 1 >=? height
  | None => false
  end.

(** [ok && ic.Block.Index == height]: the block is read only when the
    hardfork is listed, and reading it through a nil pointer panics. *)
Definition IsHardforkActivation (ic : Context) (hf : config.Hardfork) : outcome bool :=
  match Hardforks ic !! HardforkString hf with
  | Some height =>
      match Block ic with
      | Some b => Returns (block.Index b =? height)
      | None => Panics
      end
  | None => Returns false
  end.
End Hardforks.

(** ** Materialisation over a store of method descriptors

    [MethodAndPrice.MD] is a pointer to a [manifest.Method]. The model
    below keeps the descriptors in a store and the pointers in the
    tables, so that the writes of [buildHFSpecificMD] are visible. *)

Module Ptr.
Abbreviation loc := positive (only parsing).
Abbreviation store := (gmap positive manifest.Method) (only parsing).

Record HFSpecificMethodAndPrice : Type := mkHFSpecificMethodAndPrice {
  Func : Method;
  MD : loc;
  CPUFee : Z;
  StorageFee : Z;
  SyscallOffset : Z;
  RequiredFlags : callflag.CallFlag }.

Record MethodAndPrice : Type := mkMethodAndPrice {
  HFSpecific : HFSpecificMethodAndPrice;
  ActiveFrom : option config.Hardfork }.

Record HFSpecificContractMD : Type := mkHFSpecificContractMD {
  Base : ContractBase;
  HFMethods : list HFSpecificMethodAndPrice;
  HFEvents : list HFSpecificEvent }.

Record ContractMD : Type := mkContractMD {
  ID : Z;
  Hash : Z;
  Name : string;
  Methods : list MethodAndPrice;
  Events : list Event;
  ActiveHFs : gset Z;
  mdCache : gmap Z HFSpecificContractMD;
  onManifestConstruction : option (manifest.Manifest -> manifest.Manifest) }.

Definition set_mdCache (c : ContractMD) (cache : gmap Z HFSpecificContractMD) : ContractMD :=
  {| ID := ID c; Hash := Hash c; Name := Name c; Methods := Methods c; Events := Events c;
     ActiveHFs := ActiveHFs c; mdCache := cache;
     onManifestConstruction := onManifestConstruction c |}.

Definition buildState : Type :=
  (list Z * list manifest.Method * list HFSpecificMethodAndPrice)%type.

Section Materialise.
Variable ToID : string -> Z.

(** The first loop. [md := *m.MD] reads the store (a nil or dangling
    pointer panics), [m.MD = &md] puts the copy at a fresh location and
    [m.MD.Offset = w.Len()] writes to that location. *)
Fixpoint buildMethods (hf : option config.Hardfork) (ms : list MethodAndPrice)
  (h : store) (st : buildState) : store * outcome buildState :=
  match ms with
  | [] => (h, Returns st)
  | m :: rest =>
      if negb (isActive (ActiveFrom m) hf) then buildMethods hf rest h st
      else
        match h !! MD (HFSpecific m) with
        | None => (h, Panics)
        | Some md =>
            let '(w, abiMethods, methods) := st in
            let l := fresh (dom h) in
            let h := <[l := md]> h in
            let h := <[l := manifest.set_Offset md (Z.of_nat (length w))]> h in
            let w := emit.Int w 0 in
            let syscallOffset := Z.of_nat (length w) in
            let w := emit.Syscall ToID w interopnames.SystemContractCallNative in
            let w := emit.Opcodes w [opcode.RET] in
            match h !! l with
            | None => (h, Panics)
            | Some clone =>
                buildMethods hf rest h
                  (w, abiMethods ++ [clone],
                   methods ++ [ {| Func := Func (HFSpecific m); MD := l;
                                   CPUFee := CPUFee (HFSpecific m);
                                   StorageFee := StorageFee (HFSpecific m);
                                   SyscallOffset := syscallOffset;
                                   RequiredFlags := RequiredFlags (HFSpecific m) |} ])
            end
        end
  end.

Definition buildHFSpecificMD (c : ContractMD) (hf : option config.Hardfork) (h : store)
  : store * outcome (HFSpecificContractMD * ContractMD) :=
  match buildMethods hf (Methods c) h ([], [], []) with
  | (h, Panics) => (h, Panics)
  | (h, Returns (w, abiMethods, methods)) =>
      let '(abiEvents, events) := fold_left (buildEvent hf) (Events c) ([], []) in
      let nf := {| Compiler := "neo-core-v3.0"; Tokens := []; Script := w |} in
      let m := manifest.DefaultManifest (Name c) in
      let m := {| manifest.MName := manifest.MName m;
                  manifest.ABIMethods := abiMethods;
                  manifest.ABIEvents := abiEvents |} in
      let m := match onManifestConstruction c with Some cb => cb m | None => m end in
      let md := {| Base := {| BaseID := ID c; BaseHash := Hash c; BaseNEF := nf;
                              BaseManifest := m |};
                   HFMethods := methods; HFEvents := events |} in
      (h, Returns (md, set_mdCache c (<[cacheKey hf := md]> (mdCache c))))
  end.
End Materialise.

End Ptr.

(** Reading a table through the store: the declarations as values. *)
Definition derefMethod (h : Ptr.store) (m : Ptr.HFSpecificMethodAndPrice)
  : option HFSpecificMethodAndPrice :=
  match h !! Ptr.MD m with
  | Some d => Some {| Func := Ptr.Func m; MD := d; CPUFee := Ptr.CPUFee m;
                      StorageFee := Ptr.StorageFee m; SyscallOffset := Ptr.SyscallOffset m;
                      RequiredFlags := Ptr.RequiredFlags m |}
  | None => None
  end.

Definition derefDecl (h : Ptr.store) (m : Ptr.MethodAndPrice) : option MethodAndPrice :=
  match derefMethod h (Ptr.HFSpecific m) with
  | Some v => Some {| HFSpecific := v; ActiveFrom := Ptr.ActiveFrom m |}
  | None => None
  end.

(** ** Notions used in the statements *)

(** A predicate that, once true, stays true up to [n]: what [sort.Search]
    expects of its argument. *)
Definition monotone (f : nat -> bool) (n : nat) : Prop :=
  forall a b, (a <= b < n)%nat -> f a = true -> f b = true.

(** The order in which [AddMethod] keeps the table: by name, and by the
    number of parameters among methods of one name. *)
Definition methodLe (a b : HFSpecificMethodAndPrice) : Prop :=
  String_as_OT.lt (methodName a) (methodName b) \/
  (methodName a = methodName b /\ (paramCount a <= paramCount b)%nat).

(** [a] comes strictly before [b] in that order. *)
Definition methodLt (a b : HFSpecificMethodAndPrice) : Prop :=
  String_as_OT.lt (methodName a) (methodName b) \/
  (methodName a = methodName b /\ (paramCount a < paramCount b)%nat).

(** The order of the specification: by name, and by the number of
    parameters, largest first, among methods of one name. *)
Definition methodLeDesc (a b : HFSpecificMethodAndPrice) : Prop :=
  String_as_OT.lt (methodName a) (methodName b) \/
  (methodName a = methodName b /\ (paramCount b <= paramCount a)%nat).

Definition declsSorted (R : relation HFSpecificMethodAndPrice)
  (ms : list MethodAndPrice) : Prop :=
  StronglySorted R (map HFSpecific ms).

(** A run of registrations. *)
Definition registerAll (c : ContractMD) (regs : list (MethodAndPrice * manifest.Method))
  : ContractMD :=
  fold_left (fun c r => AddMethod c r.1 r.2) regs c.

(** What [get_method] is asked for. *)
Definition matches (name : string) (n : Z) (m : HFSpecificMethodAndPrice) : Prop :=
  methodName m = name /\ (n = -1 \/ Z.of_nat (paramCount m) = n).

(** The eight bytes of one stub. *)
Definition stub (ToID : string -> Z) : list Z :=
  [opcode.PUSHINT8; 0; opcode.SYSCALL]
  ++ emit.le32 (ToID interopnames.SystemContractCallNative) ++ [opcode.RET].

(** The script of [k] methods. *)
Fixpoint stubs (ToID : string -> Z) (k : nat) : list Z :=
  match k with
  | O => []
  | S k => stub ToID ++ stubs ToID k
  end.

(** The entry of the method table made from a declaration when the writer
    stands at [off]. *)
Definition entryAt (off : nat) (m : MethodAndPrice) : HFSpecificMethodAndPrice :=
  {| Func := Func (HFSpecific m);
     MD := manifest.set_Offset (MD (HFSpecific m)) (Z.of_nat off);
     CPUFee := CPUFee (HFSpecific m); StorageFee := StorageFee (HFSpecific m);
     SyscallOffset := Z.of_nat off + 2;
     RequiredFlags := RequiredFlags (HFSpecific m) |}.

Fixpoint entriesFrom (off : nat) (kept : list MethodAndPrice) : list HFSpecificMethodAndPrice :=
  match kept with
  | [] => []
  | m :: rest => entryAt off m :: entriesFrom (off + 8) rest
  end.

Definition keptMethods (hf : option config.Hardfork) (ms : list MethodAndPrice)
  : list MethodAndPrice :=
  List.filter (fun m => isActive (ActiveFrom m) hf) ms.

Definition keptEvents (hf : option config.Hardfork) (es : list Event) : list Event :=
  List.filter (fun e => isActive (EventActiveFrom e) hf) es.

(** The function table in the order [Sort] leaves it. *)
Definition sortedByID (fs : list Function) : Prop :=
  StronglySorted (fun f g => FID f <= FID g) fs.

(** The predicate of the search in [GetFunction]. *)
Definition idAtLeast (fs : list Function) (id : Z) (i : nat) : bool :=
  match fs !! i with Some f => FID f >=? id | None => false end.

(** The function registered under an id, the first if there are several. *)
Definition registered (fs : list Function) (id : Z) : option Function :=
  List.find (fun f => FID f =? id) fs.

(** The context with no block attached whose ledger stands at [height]. *)
Definition withLedgerHeight (ic : Context) (height : Z) : Context :=
  {| Chain := {| LedgerBlockHeight := height;
                 LedgerCurrentBlockHash := LedgerCurrentBlockHash (Chain ic);
                 LedgerGetBlock := LedgerGetBlock (Chain ic);
                 LedgerGetHeaderHash := LedgerGetHeaderHash (Chain ic) |};
     Network := Network ic; Hardforks := Hardforks ic; Block := None; VM := VM ic;
     Notifications := Notifications ic;
     baseExecFee := baseExecFee ic; baseStorageFee := baseStorageFee ic |}.

(** ** Scenarios *)

Definition callNativeID (api : string) : Z := 1736177434.
Definition nativeHash (name : string) : Z := 0.

Definition descriptor (name : string) (params : list string) : manifest.Method :=
  {| manifest.Name := name; manifest.Offset := 0;
     manifest.Params := map (fun p => manifest.mkParam p 0) params;
     manifest.ReturnType := 0; manifest.Safe := false |}.

Definition declaration (activeFrom : option config.Hardfork) : MethodAndPrice :=
  {| HFSpecific := {| Func := 0%nat; MD := descriptor "" []; CPUFee := 0; StorageFee := 0;
                      SyscallOffset := 0; RequiredFlags := callflag.NoneFlag |};
     ActiveFrom := activeFrom |}.

Definition hfA : config.Hardfork := 1.
Definition hfB : config.Hardfork := 2.

(** Scenario S1: [foo()] and [bar(x)]. *)
Definition contractS1 : ContractMD :=
  registerAll (NewContractMD nativeHash "T" (-4) None)
    [ (declaration None, descriptor "foo" []);
      (declaration None, descriptor "bar" ["x"]) ].

(** Scenario S2: [m1] always active, [m2] from [hfA], [m3] from [hfB]. *)
Definition contractS2 : ContractMD :=
  registerAll (NewContractMD nativeHash "S2" (-1) None)
    [ (declaration None, descriptor "m1" []);
      (declaration (Some hfA), descriptor "m2" []);
      (declaration (Some hfB), descriptor "m3" []) ].

(** The declaration of [copy] with the given parameters, once registered. *)
Definition copyDecl (params : list string) : MethodAndPrice :=
  attach (declaration None) (manifest.set_Safe (descriptor "copy" params) true).

(** Scenario S3: [copy(a,b)], then [copy(a,b,c)], then [copy(a)]. *)
Definition contractS3 : ContractMD :=
  registerAll (NewContractMD nativeHash "S3" (-2) None)
    [ (declaration None, descriptor "copy" ["a"; "b"]);
      (declaration None, descriptor "copy" ["a"; "b"; "c"]);
      (declaration None, descriptor "copy" ["a"]) ].

Definition eventS2 (name : string) (activeFrom : option config.Hardfork) : Event :=
  {| EventHFSpecific := {| EventMD := {| manifest.EName := name; manifest.EParams := [] |} |};
     EventActiveFrom := activeFrom |}.

Definition contractS2e : ContractMD :=
  AddEvent (AddEvent contractS2 (eventS2 "e1" None)) (eventS2 "e2" (Some hfA)).

(** Scenario S4: syscall 42, price 100, needing [WriteStates]. *)
Definition handler42 (ic : Context) : option error * Context :=
  (None, {| Chain := Chain ic; Network := Network ic; Hardforks := Hardforks ic;
            Block := Block ic; VM := VM ic;
            Notifications := Notifications ic ++ [(42, "called")];
            baseExecFee := baseExecFee ic; baseStorageFee := baseStorageFee ic |}).

Definition function42 : Function :=
  {| FID := 42; FName := "fortytwo"; FFunc := handler42;
     FParamCount := 0; FPrice := 100; FRequiredFlags := callflag.WriteStates |}.

Definition tableS4 : list Function :=
  [ {| FID := 7; FName := "seven"; FFunc := fun ic => (Some (ErrOther "seven"), ic);
       FParamCount := 0; FPrice := 1; FRequiredFlags := callflag.NoneFlag |};
    function42 ].

Definition blockAt (k : Z) : block.Block := {| block.Index := k; block.Nonce := 0 |}.

Definition ledgerS5 : Ledger :=
  {| LedgerBlockHeight := 3;
     LedgerCurrentBlockHash := 1003;
     LedgerGetBlock := fun h =>
       if h =? 1005 then inl (blockAt 5)
       else if h =? 1002 then inl (blockAt 2)
       else inr (ErrOther "block not found");
     LedgerGetHeaderHash := fun i => 1000 + i |}.

Definition scenarioContext (blk : option block.Block) (gasLimit : Z) (flags : callflag.CallFlag)
  : Context :=
  {| Chain := ledgerS5; Network := 860833102;
     Hardforks := {[ "A" := 5 ]};
     Block := blk;
     VM := {| vm.gasConsumed := 0; vm.GasLimit := gasLimit; vm.callFlags := flags |};
     Notifications := [];
     baseExecFee := 30; baseStorageFee := 1000 |}.

Definition hardforkName (hf : config.Hardfork) : string :=
  if hf =? 1 then "A" else "B".

(** A store with one descriptor and a contract that declares it. *)
Definition storeS9 : Ptr.store :=
  {[ 1%positive := manifest.set_Offset (descriptor "foo" []) 77 ]}.

Definition contractS9 : Ptr.ContractMD :=
  {| Ptr.ID := -3; Ptr.Hash := 0; Ptr.Name := "S9";
     Ptr.Methods :=
       [ {| Ptr.HFSpecific := {| Ptr.Func := 0%nat; Ptr.MD := 1%positive; Ptr.CPUFee := 0;
                                 Ptr.StorageFee := 0; Ptr.SyscallOffset := 0;
                                 Ptr.RequiredFlags := callflag.NoneFlag |};
            Ptr.ActiveFrom := None |} ];
     Ptr.Events := []; Ptr.ActiveHFs := ∅; Ptr.mdCache := ∅;
     Ptr.onManifestConstruction := None |}.

(** ** Further functions of the context *)

Module binary.
(** Go's [encoding/binary.LittleEndian] on byte slices: the value of a
    slice read lowest byte first, and the [n] lowest bytes of a value. *)
Fixpoint leValue (bs : list Z) : Z :=
  match bs with
  | [] => 0
  | b :: bs => b + 256 * leValue bs
  end.

Fixpoint leBytes (n : nat) (v : Z) : list Z :=
  match n with
  | O => []
  | S n => v mod 256 :: leBytes n (v / 256)
  end.

(** [Uint64] and [PutUint64] on a slice of at least eight bytes (Go panics
    on a shorter one; [NonceData] is a [[16]byte] array). *)
Definition Uint64 (b : list Z) : Z := leValue (take 8 b).
Definition PutUint64 (b : list Z) (v : Z) : list Z := leBytes 8 v ++ drop 8 b.
End binary.

(** Go's built-in [copy(dst, src)]: the first [min(len(dst), len(src))]
    bytes of [dst] are overwritten. *)
Definition copy_bytes (dst src : list Z) : list Z :=
  take (length dst) src ++ drop (length src) dst.

(** [InitNonceData]. [txHash] is [tx.Hash().BytesBE()] when the container
    is a transaction and [None] otherwise; the result is the new
    [ic.NonceData], given beside the context like the value before. *)
Definition InitNonceData (ic : Context) (txHash : option (list Z)) (nonceData : list Z)
  : list Z :=
  let nonceData :=
    match txHash with
    | Some h => copy_bytes nonceData h
    | None => nonceData
    end in
  match Block ic with
  | Some b =>
      let nonce := Z.lxor (block.Nonce b) (binary.Uint64 nonceData) in
      binary.PutUint64 nonceData nonce
  | None => nonceData
  end.

Section Hooks.
(** What the cancel functions act on: the resources outside the context. *)
Variable World : Type.

(** The part of the context that teardown touches: [ic.cancelFuncs], and
    the world of the hooks. A nil [context.CancelFunc] is [None]. *)
Record Teardown : Type := mkTeardown {
  cancelFuncs : list (World -> World);
  world : World }.

Definition RegisterCancelFunc (s : Teardown) (f : option (World -> World)) : Teardown :=
  match f with
  | Some g => {| cancelFuncs := cancelFuncs s ++ [g]; world := world s |}
  | None => s
  end.

Definition Finalize (s : Teardown) : Teardown :=
  {| cancelFuncs := [];
     world := fold_left (fun w f => f w) (cancelFuncs s) (world s) |}.

(** [Exec]: [defer ic.Finalize(); return ic.VM.Run()]. The run of the VM,
    which may register hooks, is given; its result is returned, or its
    panic goes on, after the deferred [Finalize]. *)
Definition Exec (Run : Teardown -> outcome (option error) * Teardown) (s : Teardown)
  : outcome (option error) * Teardown :=
  let '(res, s) := Run s in (res, Finalize s).
End Hooks.
Arguments cancelFuncs {World} _.
Arguments world {World} _.
Arguments RegisterCancelFunc {World} _ _.
Arguments Finalize {World} _.
Arguments Exec {World} _ _.

(** ** Further notions used in the statements *)

(** A call of [AddMethod] or of [AddEvent]. *)
Inductive registration : Type :=
| RegMethod (md : MethodAndPrice) (desc : manifest.Method)
| RegEvent (md : Event).

Definition register (c : ContractMD) (r : registration) : ContractMD :=
  match r with
  | RegMethod md desc => AddMethod c md desc
  | RegEvent md => AddEvent c md
  end.

Definition registerSeq (c : ContractMD) (rs : list registration) : ContractMD :=
  fold_left register rs c.

(** An entry of a materialised table that stems from a declaration: all
    but the two offsets is the declaration's. *)
Definition stemsFrom (e : HFSpecificMethodAndPrice) (m : MethodAndPrice) : Prop :=
  Func e = Func (HFSpecific m) /\
  manifest.Name (MD e) = manifest.Name (MD (HFSpecific m)) /\
  manifest.Params (MD e) = manifest.Params (MD (HFSpecific m)) /\
  manifest.ReturnType (MD e) = manifest.ReturnType (MD (HFSpecific m)) /\
  manifest.Safe (MD e) = manifest.Safe (MD (HFSpecific m)) /\
  CPUFee e = CPUFee (HFSpecific m) /\
  StorageFee e = StorageFee (HFSpecific m) /\
  RequiredFlags e = RequiredFlags (HFSpecific m).

(** A byte. *)
Definition isByte (b : Z) : Prop := 0 <= b < 256.

(** A run of [RegisterCancelFunc] calls. *)
Definition registerHooks {World : Type} (s : Teardown World)
  (fs : list (option (World -> World))) : Teardown World :=
  fold_left RegisterCancelFunc fs s.

(** The hooks among the arguments of such a run that are not nil. *)
Definition givenHooks {World : Type} (fs : list (option (World -> World)))
  : list (World -> World) :=
  omap id fs.

(** ** Further scenarios *)


Definition nonceS6 : list Z := [0; 0; 0; 0; 0; 0; 0; 0; 0; 0; 0; 0; 0; 0; 0; 0].

Definition txHashS6 : list Z :=
  [1; 2; 3; 4; 5; 6; 7; 8; 9; 10; 11; 12; 13; 14; 15; 16;
   17; 18; 19; 20; 21; 22; 23; 24; 25; 26; 27; 28; 29; 30; 31; 32].

Definition contextS6 : Context :=
  scenarioContext (Some {| block.Index := 7; block.Nonce := 72623859790382856 |})
    0 callflag.NoneFlag.

(** The events among a run of registrations, in order. *)
Definition eventsOf (rs : list registration) : list Event :=
  omap (fun r => match r with RegEvent e => Some e | RegMethod _ _ => None end) rs.

(** The descriptor as [AddMethod] leaves it: [Safe] set from the flags. *)
Definition markSafe (md : MethodAndPrice) (desc : manifest.Method) : manifest.Method :=
  manifest.set_Safe desc
    (Z.land (RequiredFlags (HFSpecific md)) (Z.lxor callflag.All callflag.ReadOnly) =? 0).

(** A declaration is marked safe exactly when it requires neither
    [WriteStates] nor [AllowNotify]. *)
Definition safeAsFlags (m : MethodAndPrice) : Prop :=
  manifest.Safe (MD (HFSpecific m)) = true <->
  Z.land (RequiredFlags (HFSpecific m)) callflag.WriteStates = 0 /\
  Z.land (RequiredFlags (HFSpecific m)) callflag.AllowNotify = 0.

(** The hardforks that the members of a contract are active from. *)
Definition activationOf (c : ContractMD) (h : Z) : Prop :=
  (exists m, m ∈ Methods c /\ ActiveFrom m = Some h) \/
  (exists e, e ∈ Events c /\ EventActiveFrom e = Some h).


(** * Properties *)

(** ** [sort.Search] *)

Lemma Search_loop_step f i j :
  Search_loop f i j =
  if lt_dec i j then
    if negb (f ((i + j) / 2)%nat)
    then Search_loop f ((i + j) / 2 + 1)%nat j
    else Search_loop f i ((i + j) / 2)%nat
  else i.
Proof.
  rewrite Search_loop_equation_1. destruct (lt_dec i j); reflexivity.
Qed.

Lemma half_between i j : (i < j)%nat -> (i <= (i + j) / 2 < j)%nat.
Proof.
  intros H. pose proof (Nat.div_mod_eq (i + j) 2).
  pose proof (Nat.mod_upper_bound (i + j) 2). lia.
Qed.

Lemma Search_loop_range f i j : (i <= j)%nat -> (i <= Search_loop f i j <= j)%nat.
Proof.
  remember (j - i)%nat as d eqn:Hd. revert i j Hd.
  induction d as [d IH] using lt_wf_ind. intros i j Hd Hij.
  rewrite Search_loop_step. destruct (lt_dec i j) as [Hlt|Hge]; [|lia].
  pose proof (half_between i j Hlt) as Hh.
  destruct (negb (f ((i + j) / 2)%nat)).
  - specialize (IH (j - ((i + j) / 2 + 1))%nat ltac:(lia)
                   ((i + j) / 2 + 1)%nat j eq_refl ltac:(lia)). lia.
  - specialize (IH ((i + j) / 2 - i)%nat ltac:(lia)
                   i ((i + j) / 2)%nat eq_refl ltac:(lia)). lia.
Qed.

Lemma Search_loop_partition f n i j :
  monotone f n -> (i <= j <= n)%nat ->
  (forall k, (k < i)%nat -> f k = false) ->
  (forall k, (j <= k < n)%nat -> f k = true) ->
  (forall k, (k < Search_loop f i j)%nat -> f k = false) /\
  (forall k, (Search_loop f i j <= k < n)%nat -> f k = true).
Proof.
  intros Hm. remember (j - i)%nat as d eqn:Hd. revert i j Hd.
  induction d as [d IH] using lt_wf_ind. intros i j Hd Hij Hlo Hhi.
  rewrite Search_loop_step. destruct (lt_dec i j) as [Hlt|Hge].
  2: { split; [exact Hlo|]. intros k Hk. apply Hhi. lia. }
  pose proof (half_between i j Hlt) as Hh.
  destruct (f ((i + j) / 2)%nat) eqn:Hf; simpl.
  - apply (IH ((i + j) / 2 - i)%nat ltac:(lia) i ((i + j) / 2)%nat eq_refl ltac:(lia) Hlo).
    intros k Hk. apply (Hm ((i + j) / 2)%nat k); [lia|exact Hf].
  - apply (IH (j - ((i + j) / 2 + 1))%nat ltac:(lia)
              ((i + j) / 2 + 1)%nat j eq_refl ltac:(lia)); [|exact Hhi].
    intros k Hk. destruct (f k) eqn:Hfk; [|reflexivity].
    rewrite (Hm k ((i + j) / 2)%nat ltac:(lia) Hfk) in Hf. discriminate.
Qed.

(** On a monotone predicate [sort.Search] returns the least index at which
    it holds, or [n] when there is none. *)
Lemma Search_least f n :
  monotone f n ->
  (Search n f <= n)%nat /\
  (forall k, (k < Search n f)%nat -> f k = false) /\
  (forall k, (Search n f <= k < n)%nat -> f k = true).
Proof.
  intros Hm. unfold Search. split.
  - apply (Search_loop_range f 0 n). lia.
  - apply (Search_loop_partition f n 0 n Hm); intros; lia.
Qed.

(** ** The order of strings and of methods *)

Lemma string_lt_irrefl s : ~ String_as_OT.lt s s.
Proof. apply (StrictOrder_Irreflexive (R := String_as_OT.lt)). Qed.

Lemma string_lt_trans s t u :
  String_as_OT.lt s t -> String_as_OT.lt t u -> String_as_OT.lt s u.
Proof. apply (StrictOrder_Transitive (R := String_as_OT.lt)). Qed.

Lemma string_trichotomy s t :
  String_as_OT.lt s t \/ s = t \/ String_as_OT.lt t s.
Proof. destruct (String_as_OT.compare_spec s t); auto. Qed.

Lemma string_ge_true s t : s <> t -> (string_ge s t = true <-> String_as_OT.lt t s).
Proof.
  intros Hne. unfold string_ge.
  destruct (String_as_OT.compare_spec s t) as [Heq|Hlt|Hgt].
  - contradiction.
  - split; [discriminate|]. intros H. destruct (string_lt_irrefl s).
    exact (string_lt_trans _ _ _ Hlt H).
  - tauto.
Qed.

Lemma strings_Compare_cases s t :
  (strings_Compare s t = -1 /\ String_as_OT.lt s t) \/
  (strings_Compare s t = 0 /\ s = t) \/
  (strings_Compare s t = 1 /\ String_as_OT.lt t s).
Proof.
  unfold strings_Compare. destruct (String_as_OT.compare_spec s t); auto.
Qed.

Lemma methodLe_refl a : methodLe a a.
Proof. right. split; [reflexivity|lia]. Qed.

Lemma methodLe_trans a b c : methodLe a b -> methodLe b c -> methodLe a c.
Proof.
  intros [H1|[H1 H1']] [H2|[H2 H2']].
  - left. eapply string_lt_trans; eassumption.
  - left. rewrite <- H2. exact H1.
  - left. rewrite H1. exact H2.
  - right. split; [congruence|lia].
Qed.

Lemma methodLt_le a b : methodLt a b -> methodLe a b.
Proof. intros [H|[H H']]; [left; exact H|right; split; [exact H|lia]]. Qed.

Lemma methodLt_le_trans a b c : methodLt a b -> methodLe b c -> methodLt a c.
Proof.
  intros [H1|[H1 H1']] [H2|[H2 H2']].
  - left. eapply string_lt_trans; eassumption.
  - left. rewrite <- H2. exact H1.
  - left. rewrite H1. exact H2.
  - right. split; [congruence|lia].
Qed.

Lemma methodLe_or_lt a b : methodLe a b \/ methodLt b a.
Proof.
  unfold methodLe, methodLt.
  destruct (string_trichotomy (methodName a) (methodName b)) as [H|[H|H]]; auto.
  destruct (le_lt_dec (paramCount a) (paramCount b)); auto.
Qed.

Lemma not_methodLt_le a b : ~ methodLt b a -> methodLe a b.
Proof. destruct (methodLe_or_lt a b); tauto. Qed.

Lemma methodLt_not_le a b : methodLt a b -> ~ methodLe b a.
Proof.
  intros [H1|[H1 H1']] [H2|[H2 H2']].
  - exact (string_lt_irrefl _ (string_lt_trans _ _ _ H1 H2)).
  - rewrite H2 in H1. exact (string_lt_irrefl _ H1).
  - rewrite H1 in H2. exact (string_lt_irrefl _ H2).
  - lia.
Qed.

(** ** Sorted tables *)

Lemma StronglySorted_lookup {A} (R : relation A) (l : list A) i j a b :
  StronglySorted R l -> (i < j)%nat -> l !! i = Some a -> l !! j = Some b -> R a b.
Proof.
  intros Hs Hij Ha Hb. rewrite <- (take_drop j l) in Hs.
  eapply StronglySorted_app_1_elem_of; [exact Hs| |].
  - apply list_elem_of_lookup. exists i. rewrite lookup_take_lt by lia. exact Ha.
  - apply list_elem_of_lookup. exists 0%nat. rewrite lookup_drop.
    rewrite Nat.add_0_r. exact Hb.
Qed.

Lemma StronglySorted_insert_at {A} (R : relation A) (l : list A) r x :
  StronglySorted R l ->
  (forall k e, (k < r)%nat -> l !! k = Some e -> R e x) ->
  (forall k e, (r <= k)%nat -> l !! k = Some e -> R x e) ->
  StronglySorted R (take r l ++ x :: drop r l).
Proof.
  intros Hs Hlo Hhi. pose proof Hs as Hs'. rewrite <- (take_drop r l) in Hs'.
  apply StronglySorted_app in Hs' as (Hcross & Htake & Hdrop).
  apply StronglySorted_app_2.
  - intros x1 x2 H1 H2. apply list_elem_of_lookup in H1 as [k Hk].
    pose proof (lookup_lt_Some _ _ _ Hk) as Hlen. rewrite length_take in Hlen.
    rewrite lookup_take_lt in Hk by lia.
    apply elem_of_cons in H2 as [->|H2].
    + eapply Hlo; [|exact Hk]. lia.
    + apply Hcross; [|exact H2]. apply list_elem_of_lookup. exists k.
      rewrite lookup_take_lt by lia. exact Hk.
  - exact Htake.
  - apply StronglySorted_cons. split; [|exact Hdrop].
    apply Forall_forall. intros e He. apply list_elem_of_lookup in He as [k Hk].
    rewrite lookup_drop in Hk. eapply Hhi; [|exact Hk]. lia.
Qed.

(** ** Registration *)

Lemma insertBefore_true desc ms i :
  insertBefore desc ms i = true <->
  exists e, ms !! i = Some e /\
    (String_as_OT.lt (manifest.Name desc) (methodName (HFSpecific e)) \/
     (manifest.Name desc = methodName (HFSpecific e) /\
      (length (manifest.Params desc) < paramCount (HFSpecific e))%nat)).
Proof.
  unfold insertBefore, methodName, paramCount.
  destruct (ms !! i) as [e|]; [|split; [discriminate|intros (e & He & _); discriminate]].
  destruct (String.eqb_spec (manifest.Name (MD (HFSpecific e))) (manifest.Name desc)) as [Heq|Hne];
    simpl.
  - rewrite Nat.ltb_lt. split.
    + intros H. exists e. split; [reflexivity|]. right. split; [congruence|exact H].
    + intros (e' & He & [H|[_ H]]).
      * inversion He; subst e'. rewrite Heq in H. destruct (string_lt_irrefl _ H).
      * inversion He; subst e'. exact H.
  - rewrite (string_ge_true _ _ Hne). split.
    + intros H. exists e. split; [reflexivity|]. left. exact H.
    + intros (e' & He & [H|[H _]]); inversion He; subst e'; [exact H|congruence].
Qed.

Lemma attach_name md desc : methodName (HFSpecific (attach md desc)) = manifest.Name desc.
Proof. reflexivity. Qed.

Lemma attach_params md desc :
  paramCount (HFSpecific (attach md desc)) = length (manifest.Params desc).
Proof. reflexivity. Qed.

Lemma insertBefore_methodLt md desc ms i e :
  ms !! i = Some e ->
  (insertBefore desc ms i = true <-> methodLt (HFSpecific (attach md desc)) (HFSpecific e)).
Proof.
  intros He. rewrite insertBefore_true. unfold methodLt.
  rewrite attach_name, attach_params. split.
  - intros (e' & He' & H). rewrite He in He'. inversion He'; subst e'. exact H.
  - intros H. exists e. split; [exact He|exact H].
Qed.

Lemma insertBefore_monotone (md : MethodAndPrice) desc ms :
  declsSorted methodLe ms -> monotone (insertBefore desc ms) (length ms).
Proof.
  intros Hs a b Hab Ha.
  destruct (lookup_lt_is_Some_2 ms a ltac:(lia)) as [ea Hea].
  destruct (lookup_lt_is_Some_2 ms b ltac:(lia)) as [eb Heb].
  apply (insertBefore_methodLt md desc ms a ea Hea) in Ha.
  apply (insertBefore_methodLt md desc ms b eb Heb).
  destruct (Nat.eq_dec a b) as [->|Hne].
  - rewrite Hea in Heb. inversion Heb; subst. exact Ha.
  - eapply methodLt_le_trans; [exact Ha|].
    eapply (StronglySorted_lookup methodLe (map HFSpecific ms) a b).
    + exact Hs.
    + lia.
    + rewrite list_lookup_fmap, Hea. reflexivity.
    + rewrite list_lookup_fmap, Heb. reflexivity.
Qed.

Lemma AddMethod_Methods c md desc :
  exists desc' index,
    manifest.Name desc' = manifest.Name desc /\
    manifest.Params desc' = manifest.Params desc /\
    index = Search (length (Methods c)) (insertBefore desc' (Methods c)) /\
    Methods (AddMethod c md desc) =
      take index (Methods c) ++ attach md desc' :: drop index (Methods c).
Proof.
  eexists _, _. split; [|split; [|split; [reflexivity|reflexivity]]]; reflexivity.
Qed.

(** One registration keeps the table in order. *)
Lemma AddMethod_keeps_sorted c md desc :
  declsSorted methodLe (Methods c) -> declsSorted methodLe (Methods (AddMethod c md desc)).
Proof.
  intros Hs. destruct (AddMethod_Methods c md desc) as (desc' & index & _ & _ & Hidx & ->).
  pose proof (Search_least _ _ (insertBefore_monotone md desc' (Methods c) Hs))
    as (Hle & Hlo & Hhi).
  rewrite <- Hidx in Hle, Hlo, Hhi.
  unfold declsSorted. rewrite fmap_app, fmap_cons, fmap_take, fmap_drop.
  apply StronglySorted_insert_at.
  - exact Hs.
  - intros k e Hk He. rewrite list_lookup_fmap in He.
    destruct (Methods c !! k) as [e'|] eqn:He'; [|discriminate].
    inversion He; subst e. apply not_methodLt_le. intros Hlt.
    apply (insertBefore_methodLt md desc' (Methods c) k e' He') in Hlt.
    rewrite (Hlo k Hk) in Hlt. discriminate.
  - intros k e Hk He. rewrite list_lookup_fmap in He.
    destruct (Methods c !! k) as [e'|] eqn:He'; [|discriminate].
    inversion He; subst e. apply methodLt_le.
    apply (insertBefore_methodLt md desc' (Methods c) k e' He').
    apply Hhi. split; [exact Hk|]. eapply lookup_lt_Some. exact He'.
Qed.

Lemma registerAll_keeps_sorted regs c :
  declsSorted methodLe (Methods c) -> declsSorted methodLe (Methods (registerAll c regs)).
Proof.
  revert c. induction regs as [|[md desc] regs IH]; intros c Hs; [exact Hs|].
  apply IH. apply AddMethod_keeps_sorted. exact Hs.
Qed.

Lemma contractS3_Methods :
  Methods contractS3 = [copyDecl ["a"]; copyDecl ["a"; "b"]; copyDecl ["a"; "b"; "c"]].
Proof. reflexivity. Qed.

(** C3, as the specification states it, fails: after [copy(a,b)],
    [copy(a,b,c)], [copy(a)] the table holds the overloads with 1, 2 and 3
    parameters in this order, which is not descending. *)
Lemma AddMethod_not_descending :
  map (fun m => paramCount (HFSpecific m)) (Methods contractS3) = [1; 2; 3]%nat /\
  ~ declsSorted methodLeDesc (Methods contractS3).
Proof.
  split; [reflexivity|].
  unfold declsSorted. rewrite contractS3_Methods. intros H.
  apply StronglySorted_cons in H as [H _].
  apply Forall_cons in H as [[H|[_ H]] _].
  - exact (string_lt_irrefl _ H).
  - vm_compute in H. lia.
Qed.

(** C3, amended: after any run of [AddMethod] calls on a new contract the
    table is sorted ascending by name and, among methods of one name,
    ascending by the number of parameters; registering [copy(a,b)],
    [copy(a,b,c)], [copy(a)] gives [copy(a)], [copy(a,b)], [copy(a,b,c)]. *)
Theorem AddMethod_sorted_ascending :
  forall (hash : string -> Z) name id cb regs,
    declsSorted methodLe (Methods (registerAll (NewContractMD hash name id cb) regs)) /\
    Methods contractS3 = [copyDecl ["a"]; copyDecl ["a"; "b"]; copyDecl ["a"; "b"; "c"]].
Proof.
  intros hash name id cb regs. split; [|reflexivity].
  apply registerAll_keeps_sorted. constructor.
Qed.

(** ** Materialisation *)

Section MaterialiseFacts.
Variable ToID : string -> Z.

Lemma stub_length : length (stub ToID) = 8%nat.
Proof. reflexivity. Qed.

Lemma stubs_length k : length (stubs ToID k) = (8 * k)%nat.
Proof.
  induction k as [|k IH]; [reflexivity|].
  change (stubs ToID (S k)) with (stub ToID ++ stubs ToID k).
  rewrite length_app, stub_length, IH. lia.
Qed.

(** One turn of the loop on a kept method writes one stub. *)
Lemma buildMethod_kept hf w abi acc m :
  isActive (ActiveFrom m) hf = true ->
  buildMethod ToID hf (w, abi, acc) m =
  (w ++ stub ToID, abi ++ [MD (entryAt (length w) m)], acc ++ [entryAt (length w) m]).
Proof.
  intros Ha. unfold buildMethod. rewrite Ha. simpl negb. cbv iota.
  unfold emit.Opcodes, emit.Syscall, emit.Int, stub, entryAt.
  rewrite length_app. simpl length.
  repeat rewrite <- app_assoc. simpl app.
  replace (Z.of_nat (length w + 2)) with (Z.of_nat (length w) + 2) by lia.
  reflexivity.
Qed.

Lemma buildMethod_skipped hf st m :
  isActive (ActiveFrom m) hf = false -> buildMethod ToID hf st m = st.
Proof. intros Ha. unfold buildMethod. destruct st as [[w abi] acc]. rewrite Ha. reflexivity. Qed.

(** The first loop, as a whole. *)
Lemma fold_buildMethod hf ms : forall w abi acc,
  fold_left (buildMethod ToID hf) ms (w, abi, acc) =
  (w ++ stubs ToID (length (keptMethods hf ms)),
   abi ++ map MD (entriesFrom (length w) (keptMethods hf ms)),
   acc ++ entriesFrom (length w) (keptMethods hf ms)).
Proof.
  induction ms as [|m ms IH]; intros w abi acc.
  - simpl. rewrite !app_nil_r. reflexivity.
  - change (fold_left (buildMethod ToID hf) (m :: ms) (w, abi, acc))
      with (fold_left (buildMethod ToID hf) ms (buildMethod ToID hf (w, abi, acc) m)).
    unfold keptMethods in *. cbn [List.filter].
    destruct (isActive (ActiveFrom m) hf) eqn:Ha.
    + rewrite (buildMethod_kept hf w abi acc m Ha), IH.
      rewrite length_app, stub_length. cbn [length entriesFrom stubs map].
      rewrite <- !app_assoc. reflexivity.
    + rewrite (buildMethod_skipped hf _ m Ha). apply IH.
Qed.

Lemma fold_buildEvent hf es : forall abi acc,
  fold_left (buildEvent hf) es (abi, acc) =
  (abi ++ map (fun e => EventMD (EventHFSpecific e)) (keptEvents hf es),
   acc ++ map EventHFSpecific (keptEvents hf es)).
Proof.
  induction es as [|e es IH]; intros abi acc.
  - simpl. rewrite !app_nil_r. reflexivity.
  - change (fold_left (buildEvent hf) (e :: es) (abi, acc))
      with (fold_left (buildEvent hf) es (buildEvent hf (abi, acc) e)).
    unfold keptEvents in *. cbn [List.filter]. unfold buildEvent at 2.
    destruct (isActive (EventActiveFrom e) hf) eqn:Ha; cbn [negb fst snd map].
    + rewrite IH, <- !app_assoc. reflexivity.
    + apply IH.
Qed.

Lemma materialise_HFMethods c hf :
  HFMethods (materialise ToID c hf) = entriesFrom 0 (keptMethods hf (Methods c)).
Proof.
  unfold materialise, buildHFSpecificMD. rewrite fold_buildMethod, fold_buildEvent. reflexivity.
Qed.

Lemma materialise_HFEvents c hf :
  HFEvents (materialise ToID c hf) = map EventHFSpecific (keptEvents hf (Events c)).
Proof.
  unfold materialise, buildHFSpecificMD. rewrite fold_buildMethod, fold_buildEvent. reflexivity.
Qed.

Lemma materialise_Script c hf :
  Script (BaseNEF (Base (materialise ToID c hf))) =
  stubs ToID (length (keptMethods hf (Methods c))).
Proof.
  unfold materialise, buildHFSpecificMD. rewrite fold_buildMethod, fold_buildEvent. reflexivity.
Qed.

Lemma buildHFSpecificMD_Methods c hf : Methods (buildHFSpecificMD ToID c hf).2 = Methods c.
Proof.
  unfold buildHFSpecificMD. rewrite fold_buildMethod, fold_buildEvent. reflexivity.
Qed.

Lemma entriesFrom_length off kept : length (entriesFrom off kept) = length kept.
Proof. revert off. induction kept as [|m kept IH]; intros off; simpl; [reflexivity|]. rewrite IH. reflexivity. Qed.

Lemma entriesFrom_lookup kept : forall off i e,
  entriesFrom off kept !! i = Some e <->
  exists m, kept !! i = Some m /\ e = entryAt (off + 8 * i) m.
Proof.
  induction kept as [|m kept IH]; intros off i e; simpl.
  - rewrite lookup_nil. split; [discriminate|]. intros (m & Hm & _). rewrite lookup_nil in Hm. discriminate.
  - destruct i as [|i]; simpl.
    + rewrite Nat.add_0_r. split.
      * intros H. inversion H. eauto.
      * intros (m' & Hm & ->). inversion Hm. reflexivity.
    + rewrite IH. replace (off + 8 + 8 * i)%nat with (off + 8 * S i)%nat by lia. reflexivity.
Qed.

Lemma le32_value id :
  id mod 256 + 256 * ((id / 256) mod 256) + 65536 * ((id / 65536) mod 256)
  + 16777216 * ((id / 16777216) mod 256) = U32.wrap id.
Proof.
  unfold U32.wrap, U32.modulus.
  change (2 ^ 32) with (256 * (256 * (256 * 256))).
  rewrite (Z.rem_mul_r id 256 (256 * (256 * 256))) by lia.
  rewrite (Z.rem_mul_r (id / 256) 256 (256 * 256)) by lia.
  rewrite (Z.rem_mul_r (id / 256 / 256) 256 256) by lia.
  rewrite !Z.div_div by lia.
  change (256 * 256) with 65536. change (65536 * 256) with 16777216.
  lia.
Qed.

Lemma stubs_split i j : stubs ToID (i + j) = stubs ToID i ++ stubs ToID j.
Proof.
  induction i as [|i IH]; [reflexivity|].
  change (stubs ToID (S i + j)) with (stub ToID ++ stubs ToID (i + j)).
  change (stubs ToID (S i)) with (stub ToID ++ stubs ToID i).
  rewrite IH, app_assoc. reflexivity.
Qed.

(** The script from the [i]-th stub on. *)
Lemma stubs_drop i k :
  (i < k)%nat ->
  drop (8 * i) (stubs ToID k) = stub ToID ++ stubs ToID (k - S i).
Proof.
  intros Hik. replace k with (i + S (k - S i))%nat at 1 by lia.
  rewrite stubs_split.
  rewrite drop_app_length' by (rewrite stubs_length; reflexivity).
  reflexivity.
Qed.

Lemma decodeSyscall_stub i k :
  (i < k)%nat ->
  emit.decodeSyscall (stubs ToID k) (8 * i + 2) =
  Some (U32.wrap (ToID interopnames.SystemContractCallNative)).
Proof.
  intros Hik. unfold emit.decodeSyscall.
  rewrite <- drop_drop, (stubs_drop i k Hik).
  unfold stub, emit.le32. cbn [app drop]. 
  change (opcode.SYSCALL =? opcode.SYSCALL) with true. cbv iota.
  rewrite le32_value. reflexivity.
Qed.

(** C2: the script of a materialised descriptor holds eight bytes for
    each method of its table; for every method [m] of the table the eight
    bytes at [m.offset] are [PUSHINT8 0], the five bytes of
    [SYSCALL System.Contract.CallNative] and [RET], the syscall is read
    back at [m.syscall_offset], and [m.offset = m.syscall_offset - 2]. *)
Theorem stub_layout c hf :
  let h := materialise ToID c hf in
  let script := Script (BaseNEF (Base h)) in
  length script = (8 * length (HFMethods h))%nat /\
  Forall (fun m =>
    0 <= manifest.Offset (MD m) /\
    manifest.Offset (MD m) = SyscallOffset m - 2 /\
    take 8 (drop (Z.to_nat (manifest.Offset (MD m))) script) =
      [opcode.PUSHINT8; 0; opcode.SYSCALL]
      ++ emit.le32 (ToID interopnames.SystemContractCallNative) ++ [opcode.RET] /\
    emit.decodeSyscall script (Z.to_nat (SyscallOffset m)) =
      Some (U32.wrap (ToID interopnames.SystemContractCallNative)) /\
    script !! (Z.to_nat (SyscallOffset m) + 5)%nat = Some opcode.RET)
    (HFMethods h).
Proof.
  intros h script. subst h script.
  rewrite materialise_Script, materialise_HFMethods.
  set (kept := keptMethods hf (Methods c)).
  split.
  - rewrite stubs_length, entriesFrom_length. reflexivity.
  - apply Forall_lookup. intros i m Hm.
    apply entriesFrom_lookup in Hm as (m0 & Hm0 & ->).
    pose proof (lookup_lt_Some _ _ _ Hm0) as Hlt.
    cbn [entryAt MD SyscallOffset manifest.set_Offset manifest.Offset].
    replace (Z.to_nat (Z.of_nat (0 + 8 * i))) with (8 * i)%nat by lia.
    replace (Z.to_nat (Z.of_nat (0 + 8 * i) + 2)) with (8 * i + 2)%nat by lia.
    repeat split.
    + lia.
    + lia.
    + rewrite (stubs_drop i _ Hlt). reflexivity.
    + apply decodeSyscall_stub. exact Hlt.
    + replace (8 * i + 2 + 5)%nat with (8 * i + 7)%nat by lia.
      rewrite <- lookup_drop, (stubs_drop i _ Hlt). reflexivity.
Qed.

(** ** Lookup by name *)

Lemma methodAtOrAfter_true name n ms i :
  methodAtOrAfter name n ms i = true <->
  exists md, ms !! i = Some md /\
    (String_as_OT.lt name (methodName md) \/
     (name = methodName md /\ n <= Z.of_nat (paramCount md))).
Proof.
  unfold methodAtOrAfter, methodName, paramCount.
  destruct (ms !! i) as [md|]; [|split; [discriminate|intros (e & He & _); discriminate]].
  destruct (strings_Compare_cases name (manifest.Name (MD md))) as [[-> H]|[[-> H]|[-> H]]];
    cbn [Z.eqb orb]; cbv iota.
  - split; [|reflexivity]. intros _. exists md. split; [reflexivity|]. left. exact H.
  - rewrite Z.leb_le. split.
    + intros Hn. exists md. split; [reflexivity|]. right. split; assumption.
    + intros (md' & Hmd & [Hlt|[_ Hn]]); inversion Hmd; subst md'.
      * rewrite <- H in Hlt. destruct (string_lt_irrefl _ Hlt).
      * exact Hn.
  - split; [discriminate|].
    intros (md' & Hmd & [Hlt|[Heq _]]); inversion Hmd; subst md'.
    + destruct (string_lt_irrefl _ (string_lt_trans _ _ _ H Hlt)).
    + rewrite <- Heq in H. destruct (string_lt_irrefl _ H).
Qed.

Lemma methodAtOrAfter_monotone name n ms :
  StronglySorted methodLe ms -> monotone (methodAtOrAfter name n ms) (length ms).
Proof.
  intros Hs a b Hab Ha.
  destruct (Nat.eq_dec a b) as [->|Hne]; [exact Ha|].
  apply methodAtOrAfter_true in Ha as (ma & Hma & Ha).
  destruct (lookup_lt_is_Some_2 ms b ltac:(lia)) as [mb Hmb].
  apply methodAtOrAfter_true. exists mb. split; [exact Hmb|].
  pose proof (StronglySorted_lookup methodLe ms a b ma mb Hs ltac:(lia) Hma Hmb) as Hle.
  destruct Ha as [Ha|[Ha Ha']], Hle as [Hle|[Hle Hle']].
  - left. eapply string_lt_trans; eassumption.
  - left. rewrite <- Hle. exact Ha.
  - left. rewrite Ha. exact Hle.
  - right. split; [congruence|lia].
Qed.

(** What [GetMethod] returns is an entry of the table that matches. *)
Lemma GetMethod_sound h name n m :
  GetMethod h name n = Some m -> m ∈ HFMethods h /\ matches name n m.
Proof.
  unfold GetMethod, matches, methodName, paramCount.
  destruct (_ <? _)%nat; [|discriminate].
  destruct (HFMethods h !! _) as [md|] eqn:Hmd; [|discriminate].
  destruct (String.eqb_spec (manifest.Name (MD md)) name) as [Hname|]; [|discriminate].
  cbn [andb].
  destruct (n =? -1) eqn:Hn1; cbn [orb].
  - intros H. inversion H; subst m. split; [|split; [exact Hname|left; lia]].
    eapply list_elem_of_lookup_2. exact Hmd.
  - destruct (_ =? n) eqn:Hn; [|discriminate].
    intros H. inversion H; subst m. split; [|split; [exact Hname|right; lia]].
    eapply list_elem_of_lookup_2. exact Hmd.
Qed.

(** On a sorted table [GetMethod] returns the entry at the least index
    that matches. *)
Lemma GetMethod_sorted h name n k m :
  StronglySorted methodLe (HFMethods h) ->
  HFMethods h !! k = Some m -> matches name n m ->
  exists i md, (i <= k)%nat /\ HFMethods h !! i = Some md /\
    GetMethod h name n = Some md /\
    (forall j mj, (j < i)%nat -> HFMethods h !! j = Some mj -> ~ matches name n mj) /\
    (paramCount md <= paramCount m)%nat.
Proof.
  intros Hs Hk [Hname Hn].
  pose proof (Search_least _ _ (methodAtOrAfter_monotone name n (HFMethods h) Hs))
    as (Hle & Hlo & Hhi).
  unfold GetMethod. set (i := Search _ _) in *.
  pose proof (lookup_lt_Some _ _ _ Hk) as Hklen.
  assert (Hik : (i <= k)%nat).
  { destruct (le_lt_dec i k) as [|Hlt]; [assumption|]. exfalso.
    pose proof (Hlo k Hlt) as Hf.
    assert (Ht : methodAtOrAfter name n (HFMethods h) k = true).
    { apply methodAtOrAfter_true. exists m. split; [exact Hk|]. right.
      split; [congruence|]. destruct Hn; lia. }
    congruence. }
  destruct (lookup_lt_is_Some_2 (HFMethods h) i ltac:(lia)) as [md Hmd].
  pose proof (Hhi i ltac:(lia)) as Ht.
  apply methodAtOrAfter_true in Ht as (md' & Hmd' & Ht).
  rewrite Hmd in Hmd'. inversion Hmd'; subst md'. clear Hmd'.
  assert (Hmdm : methodLe md m).
  { destruct (Nat.eq_dec i k) as [->|Hne].
    - rewrite Hk in Hmd. inversion Hmd. apply methodLe_refl.
    - eapply (StronglySorted_lookup methodLe (HFMethods h) i k); eauto. lia. }
  assert (Hmd_name : methodName md = name /\ n <= Z.of_nat (paramCount md)
                     /\ (paramCount md <= paramCount m)%nat).
  { destruct Ht as [Ht|[Ht Ht']], Hmdm as [Hm|[Hm Hm']].
    - rewrite Hname in Hm. destruct (string_lt_irrefl _ (string_lt_trans _ _ _ Ht Hm)).
    - rewrite Hm, Hname in Ht. destruct (string_lt_irrefl _ Ht).
    - rewrite <- Ht, Hname in Hm. destruct (string_lt_irrefl _ Hm).
    - split; [congruence|split; [exact Ht'|exact Hm']]. }
  destruct Hmd_name as (Hmdname & Hnle & Hple).
  exists i, md. split; [exact Hik|]. split; [exact Hmd|]. split; [|split; [|exact Hple]].
  - destruct (Nat.ltb_spec i (length (HFMethods h))) as [_|Hge]; [|lia].
    rewrite Hmd. unfold methodName in Hmdname. rewrite <- Hmdname, String.eqb_refl.
    cbn [andb]. unfold paramCount in *.
    destruct Hn as [->|Hn]; [reflexivity|].
    replace (Z.of_nat (length (manifest.Params (MD md))) =? n) with true
      by (symmetry; apply Z.eqb_eq; lia).
    rewrite orb_true_r. reflexivity.
  - intros j mj Hj Hmj [Hjn Hjp].
    pose proof (Hlo j Hj) as Hf.
    assert (Htj : methodAtOrAfter name n (HFMethods h) j = true).
    { apply methodAtOrAfter_true. exists mj. split; [exact Hmj|]. right.
      split; [congruence|]. destruct Hjp; lia. }
    congruence.
Qed.

Lemma entriesFrom_sorted kept : forall off,
  StronglySorted methodLe (map HFSpecific kept) ->
  StronglySorted methodLe (entriesFrom off kept).
Proof.
  induction kept as [|m kept IH]; intros off Hs; [constructor|].
  cbn [map] in Hs. apply StronglySorted_cons in Hs as [Hall Hs].
  cbn [entriesFrom]. apply StronglySorted_cons. split; [|apply IH; exact Hs].
  apply Forall_lookup. intros i e He.
  apply entriesFrom_lookup in He as (m' & Hm' & ->).
  rewrite Forall_lookup in Hall.
  specialize (Hall i (HFSpecific m')). rewrite list_lookup_fmap, Hm' in Hall.
  exact (Hall eq_refl).
Qed.

(** A descriptor materialised from a sorted table has a sorted table. *)
Lemma materialise_sorted c hf :
  declsSorted methodLe (Methods c) ->
  StronglySorted methodLe (HFMethods (materialise ToID c hf)).
Proof.
  intros Hs. rewrite materialise_HFMethods. apply entriesFrom_sorted.
  unfold keptMethods.
  induction (Methods c) as [|m ms IH]; cbn [List.filter map]; [constructor|].
  unfold declsSorted in Hs. cbn [map] in Hs.
  apply StronglySorted_cons in Hs as [Hall Hs].
  destruct (isActive (ActiveFrom m) hf); [|apply IH; exact Hs].
  cbn [map]. apply StronglySorted_cons. split; [|apply IH; exact Hs].
  rewrite Forall_forall in *. intros y Hy.
  apply Hall. apply list_elem_of_fmap in Hy as (x & -> & Hx).
  apply list_elem_of_fmap. exists x. split; [reflexivity|].
  apply list_elem_of_In in Hx. apply List.filter_In in Hx as [Hx _].
  apply list_elem_of_In. exact Hx.
Qed.

(** C4, as the specification states it, fails: in the table of scenario S3
    the lookup of [copy] with any arity returns the overload with one
    parameter, although an overload with three is in the table. *)
Lemma GetMethod_any_arity_not_largest :
  option_map paramCount
    (GetMethod (materialise callNativeID contractS3 None) "copy" (-1)) = Some 1%nat /\
  exists m, m ∈ HFMethods (materialise callNativeID contractS3 None) /\
    methodName m = "copy" /\ paramCount m = 3%nat.
Proof.
  split; [reflexivity|].
  exists (entryAt 16 (copyDecl ["a"; "b"; "c"])). split; [|split; reflexivity].
  apply list_elem_of_In. vm_compute. tauto.
Qed.

(** C4, amended: on the table of a descriptor materialised from a
    registered contract, [GetMethod name n] returns only an entry [m] with
    [m.name = name] and ([n = -1] or [len(m.params) = n]), and returns one
    whenever the table holds such an entry; for [n = -1] it returns the
    first entry of that name in table order, which is the overload with
    the fewest parameters. *)
Theorem GetMethod_first_match (hash : string -> Z) cname id cb regs hf name n :
  let h := materialise ToID (registerAll (NewContractMD hash cname id cb) regs) hf in
  (forall m, GetMethod h name n = Some m -> m ∈ HFMethods h /\ matches name n m) /\
  ((exists m, m ∈ HFMethods h /\ matches name n m) ->
   exists m, GetMethod h name n = Some m) /\
  (forall m, GetMethod h name (-1) = Some m ->
   exists i, HFMethods h !! i = Some m /\
     (forall j mj, (j < i)%nat -> HFMethods h !! j = Some mj -> methodName mj <> name) /\
     (forall m', m' ∈ HFMethods h -> methodName m' = name ->
        (paramCount m <= paramCount m')%nat)).
Proof.
  intros h.
  assert (Hs : StronglySorted methodLe (HFMethods h)).
  { apply materialise_sorted, registerAll_keeps_sorted. constructor. }
  split; [|split].
  - intros m. apply GetMethod_sound.
  - intros (m & Hin & Hm). apply list_elem_of_lookup in Hin as [k Hk].
    destruct (GetMethod_sorted h name n k m Hs Hk Hm) as (i & md & _ & _ & Hget & _).
    exists md. exact Hget.
  - intros m Hget.
    destruct (GetMethod_sound h name (-1) m Hget) as [Hin Hm].
    apply list_elem_of_lookup in Hin as [k Hk].
    destruct (GetMethod_sorted h name (-1) k m Hs Hk Hm) as (i & md & _ & Hi & Hget' & Hfirst & _).
    rewrite Hget in Hget'. inversion Hget'; subst md.
    exists i. split; [exact Hi|split].
    + intros j mj Hj Hmj Hname. apply (Hfirst j mj Hj Hmj).
      split; [exact Hname|left; reflexivity].
    + intros m' Hin' Hname'. apply list_elem_of_lookup in Hin' as [k' Hk'].
      destruct (GetMethod_sorted h name (-1) k' m' Hs Hk' (conj Hname' (or_introl eq_refl)))
        as (i' & md' & _ & _ & Hget'' & _ & Hle).
      rewrite Hget in Hget''. inversion Hget''; subst md'. exact Hle.
Qed.

(** ** The hardfork filter *)

Lemma Cmp_ge a h : (config.Cmp a h >=? 0) = (h <=? a).
Proof.
  unfold config.Cmp.
  destruct (Z.eqb_spec a h); [subst; symmetry; apply Z.leb_le; lia|].
  destruct (Z.ltb_spec a h).
  - symmetry. apply Z.leb_gt. lia.
  - symmetry. apply Z.leb_le. lia.
Qed.

(** What the test of the two loops decides: a member is kept when it has
    no activation hardfork, or when a hardfork is given that is not later
    than the member's. *)
Lemma isActive_true activeFrom hf :
  isActive activeFrom hf = true <->
  activeFrom = None \/ exists a h, activeFrom = Some a /\ hf = Some h /\ h <= a.
Proof.
  unfold isActive. destruct activeFrom as [a|].
  - destruct hf as [h|].
    + rewrite Cmp_ge, Z.leb_le. split.
      * intros H. right. exists a, h. auto.
      * intros [H|(a' & h' & Ha & Hh & H)]; [discriminate|]. congruence.
    + split; [discriminate|]. intros [H|(a' & h' & _ & Hh & _)]; discriminate.
  - split; auto.
Qed.

(** The method table of a materialised descriptor holds the declarations
    that pass the test, in the order of the contract. *)
Lemma materialise_keeps c hf e :
  e ∈ HFMethods (materialise ToID c hf) <->
  exists i m, keptMethods hf (Methods c) !! i = Some m /\ e = entryAt (8 * i) m.
Proof.
  rewrite materialise_HFMethods, list_elem_of_lookup.
  split.
  - intros (i & Hi). apply entriesFrom_lookup in Hi as (m & Hm & ->). eauto.
  - intros (i & m & Hm & ->). exists i. apply entriesFrom_lookup. eauto.
Qed.

Lemma keptMethods_elem hf ms m :
  m ∈ keptMethods hf ms <-> m ∈ ms /\ isActive (ActiveFrom m) hf = true.
Proof. unfold keptMethods. rewrite !list_elem_of_In. apply List.filter_In. Qed.

End MaterialiseFacts.

(** Scenario S1: two stubs, [bar] before [foo], and dispatch by the offset
    of the syscall. *)
Lemma materialise_scenario_S1 :
  length (Script (BaseNEF (Base (materialise callNativeID contractS1 None)))) = 16%nat /\
  map (fun m => (methodName m, SyscallOffset m))
    (HFMethods (materialise callNativeID contractS1 None)) = [("bar", 2); ("foo", 10)] /\
  option_map methodName
    (GetMethodByOffset (materialise callNativeID contractS1 None) 10) = Some "foo".
Proof. repeat split; reflexivity. Qed.

(** C1, on the code: with [m2] active from [hfA] and [m3] from [hfB],
    [hfA < hfB], the descriptor for [hfA] holds [m1], [m2] and [m3] and the
    one for [hfB] holds [m1] and [m3]; events are filtered alike. *)
Theorem buildHFSpecificMD_scenario_S2 :
  hfA < hfB /\
  map methodName (HFMethods (materialise callNativeID contractS2 None)) = ["m1"] /\
  map methodName (HFMethods (materialise callNativeID contractS2 (Some hfA)))
    = ["m1"; "m2"; "m3"] /\
  map methodName (HFMethods (materialise callNativeID contractS2 (Some hfB)))
    = ["m1"; "m3"] /\
  map (fun e => manifest.EName (EventMD e))
    (HFEvents (materialise callNativeID contractS2e (Some hfA))) = ["e1"; "e2"] /\
  map (fun e => manifest.EName (EventMD e))
    (HFEvents (materialise callNativeID contractS2e (Some hfB))) = ["e1"].
Proof. repeat split; reflexivity. Qed.

(** C5, on the code: [m2], in the descriptor for [hfA], is not in the
    descriptor for the later [hfB]; the same for the event [e2]. *)
Theorem materialise_later_hardfork_drops :
  hfA <= hfB /\
  ("m2" ∈ map methodName (HFMethods (materialise callNativeID contractS2 (Some hfA)))) /\
  ("m2" ∉ map methodName (HFMethods (materialise callNativeID contractS2 (Some hfB)))) /\
  ("e2" ∈ map (fun e => manifest.EName (EventMD e))
            (HFEvents (materialise callNativeID contractS2e (Some hfA)))) /\
  ("e2" ∉ map (fun e => manifest.EName (EventMD e))
            (HFEvents (materialise callNativeID contractS2e (Some hfB)))).
Proof.
  split; [unfold hfA, hfB; lia|].
  repeat split.
  - apply list_elem_of_In. vm_compute. tauto.
  - rewrite list_elem_of_In. vm_compute. intuition discriminate.
  - apply list_elem_of_In. vm_compute. tauto.
  - rewrite list_elem_of_In. vm_compute. intuition discriminate.
Qed.

(** ** Syscall dispatch *)

Lemma find_first {A} (f : A -> bool) (l : list A) : forall n x,
  l !! n = Some x -> f x = true ->
  (forall k y, (k < n)%nat -> l !! k = Some y -> f y = false) ->
  List.find f l = Some x.
Proof.
  induction l as [|a l IH]; intros n x Hn Hx Hlo; [rewrite lookup_nil in Hn; discriminate|].
  destruct n as [|n]; cbn [List.find].
  - inversion Hn; subst a. rewrite Hx. reflexivity.
  - rewrite (Hlo 0%nat a ltac:(lia) eq_refl).
    apply (IH n x Hn Hx). intros k y Hk Hy. apply (Hlo (S k) y ltac:(lia) Hy).
Qed.

Lemma find_none_iff {A} (f : A -> bool) (l : list A) :
  List.find f l = None <-> forall y, y ∈ l -> f y = false.
Proof.
  induction l as [|a l IH]; cbn [List.find].
  - split; [|reflexivity]. intros _ y Hy. apply elem_of_nil in Hy. destruct Hy.
  - destruct (f a) eqn:Ha.
    + split; [discriminate|]. intros H. rewrite (H a) in Ha; [discriminate|]. apply elem_of_cons. auto.
    + rewrite IH. split.
      * intros H y Hy. apply elem_of_cons in Hy as [->|Hy]; auto.
      * intros H y Hy. apply H. apply elem_of_cons. auto.
Qed.

Lemma registered_None fs id :
  registered fs id = None <-> forall f, f ∈ fs -> FID f <> id.
Proof.
  unfold registered. rewrite find_none_iff. split.
  - intros H f Hf Heq. specialize (H f Hf). apply Z.eqb_neq in H. contradiction.
  - intros H f Hf. apply Z.eqb_neq. apply H. exact Hf.
Qed.

Lemma registered_Some fs id f :
  registered fs id = Some f -> f ∈ fs /\ FID f = id.
Proof.
  unfold registered. intros H. apply List.find_some in H as [Hin Heq].
  split; [apply list_elem_of_In; exact Hin|apply Z.eqb_eq; exact Heq].
Qed.

Lemma idAtLeast_monotone fs id : sortedByID fs -> monotone (idAtLeast fs id) (length fs).
Proof.
  intros Hs a b Hab Ha. unfold idAtLeast in *.
  destruct (Nat.eq_dec a b) as [->|Hne]; [exact Ha|].
  destruct (fs !! a) as [fa|] eqn:Hfa; [|discriminate].
  destruct (lookup_lt_is_Some_2 fs b ltac:(lia)) as [fb Hfb]. rewrite Hfb.
  pose proof (StronglySorted_lookup _ fs a b fa fb Hs ltac:(lia) Hfa Hfb) as Hle.
  cbv beta in Hle. apply Z.geb_le. apply Z.geb_le in Ha. lia.
Qed.

(** On a table sorted by id the binary search finds the function
    registered under the id, and none when there is none. *)
Lemma GetFunction_registered fs id :
  sortedByID fs -> GetFunction fs id = registered fs id.
Proof.
  intros Hs. unfold GetFunction.
  change (fun i => match fs !! i with Some f => FID f >=? id | None => false end)
    with (idAtLeast fs id).
  pose proof (Search_least _ _ (idAtLeast_monotone fs id Hs)) as (Hle & Hlo & Hhi).
  set (n := Search _ _) in *.
  assert (Hbelow : forall k y, (k < n)%nat -> fs !! k = Some y -> FID y < id).
  { intros k y Hk Hy. pose proof (Hlo k Hk) as H. unfold idAtLeast in H. rewrite Hy in H.
    destruct (Z.geb_spec (FID y) id); [discriminate|lia]. }
  assert (Habove : forall k y, (n <= k)%nat -> fs !! k = Some y -> id <= FID y).
  { intros k y Hk Hy. pose proof (lookup_lt_Some _ _ _ Hy) as Hlen.
    pose proof (Hhi k ltac:(lia)) as H. unfold idAtLeast in H. rewrite Hy in H.
    apply Z.geb_le in H. exact H. }
  assert (Hmiss : (forall y, fs !! n = Some y -> FID y <> id) -> registered fs id = None).
  { intros Hn. apply registered_None. intros f Hf Heq.
    apply list_elem_of_lookup in Hf as [k Hk].
    destruct (lt_eq_lt_dec k n) as [[Hlt| ->]|Hgt].
    - specialize (Hbelow k f Hlt Hk). lia.
    - exact (Hn f Hk Heq).
    - destruct (lookup_lt_is_Some_2 fs n) as [fn Hfn];
        [pose proof (lookup_lt_Some _ _ _ Hk); lia|].
      pose proof (Habove n fn ltac:(lia) Hfn).
      pose proof (StronglySorted_lookup _ fs n k fn f Hs Hgt Hfn Hk) as Hle'.
      cbv beta in Hle'. apply (Hn fn Hfn). lia. }
  destruct (Nat.ltb_spec n (length fs)) as [Hlt|Hge].
  - destruct (fs !! n) as [f|] eqn:Hf.
    + destruct (Z.eqb_spec (FID f) id) as [Heq|Hne].
      * symmetry. apply (find_first _ fs n f Hf); [apply Z.eqb_eq; exact Heq|].
        intros k y Hk Hy. apply Z.eqb_neq. specialize (Hbelow k y Hk Hy). lia.
      * symmetry. apply Hmiss. intros y Hy. inversion Hy; subst y. exact Hne.
    + symmetry. apply Hmiss. intros y Hy. discriminate.
  - symmetry. apply Hmiss. intros y Hy. apply lookup_lt_Some in Hy. lia.
Qed.

(** C6: on a function table sorted by id, a dispatch with id [i] fails with
    [SyscallNotFound] when no function has this id, leaving the context as
    it is, charging nothing and invoking nothing; otherwise, [f] being the
    function registered under [i], it fails with [MissingCallFlags],
    reporting both flag sets, when the flags of the current frame lack one
    of [f]'s, again with no charge and no invocation; otherwise it charges
    [f.price * base_exec_fee] and, when the budget does not hold, fails with
    [InsufficientGas] without invoking the handler; otherwise it invokes
    the handler once, after the charge, and returns what the handler
    returns. *)
Theorem SyscallHandler_gates fs ic id :
  sortedByID fs ->
  ((forall f, f ∈ fs -> FID f <> id) ->
   SyscallHandler fs ic id = (Some ErrSyscallNotFound, ic, [])) /\
  (forall f, registered fs id = Some f ->
   let cf := vm.GetCallFlags (VM ic) in
   let gas := I64.mul (FPrice f) (BaseExecFee ic) in
   let charged := set_VM ic (vm.AddGas (VM ic) gas).1 in
   (callflag.Has cf (FRequiredFlags f) = false ->
    SyscallHandler fs ic id = (Some (ErrMissingCallFlags cf (FRequiredFlags f)), ic, [])) /\
   (callflag.Has cf (FRequiredFlags f) = true ->
    (vm.AddGas (VM ic) gas).2 = false ->
    SyscallHandler fs ic id = (Some ErrInsufficientGas, charged, [Charged gas])) /\
   (callflag.Has cf (FRequiredFlags f) = true ->
    (vm.AddGas (VM ic) gas).2 = true ->
    SyscallHandler fs ic id =
      ((FFunc f charged).1, (FFunc f charged).2, [Charged gas; Invoked id]))).
Proof.
  intros Hs. unfold SyscallHandler. rewrite (GetFunction_registered fs id Hs). split.
  - intros Hnone. apply registered_None in Hnone. rewrite Hnone. reflexivity.
  - intros f Hf. cbv zeta. rewrite Hf.
    destruct (registered_Some fs id f Hf) as [_ Hid].
    set (cf := vm.GetCallFlags (VM ic)).
    set (gas := I64.mul (FPrice f) (BaseExecFee ic)).
    destruct (vm.AddGas (VM ic) gas) as [v ok] eqn:Hgas. cbn [fst snd].
    repeat split.
    + intros Hflags. rewrite Hflags. reflexivity.
    + intros Hflags Hok. rewrite Hflags, Hok. reflexivity.
    + intros Hflags Hok. rewrite Hflags, Hok. cbn [negb].
      destruct (FFunc f (set_VM ic v)) as [res ic']. rewrite Hid. reflexivity.
Qed.

Lemma tableS4_sorted : sortedByID tableS4.
Proof.
  unfold sortedByID, tableS4.
  repeat (apply StronglySorted_cons; split; [repeat constructor; cbn; lia|]).
  constructor.
Qed.

(** Scenario S4 on the table with syscall 42, price 100, needing
    [WriteStates], at base fee 30. *)
Lemma SyscallHandler_scenario_S4 :
  SyscallHandler tableS4 (scenarioContext None 300000 callflag.ReadStates) 42
    = (Some (ErrMissingCallFlags callflag.ReadStates callflag.WriteStates),
       scenarioContext None 300000 callflag.ReadStates, []) /\
  (SyscallHandler tableS4 (scenarioContext None 50 callflag.WriteStates) 42).1
    = (Some ErrInsufficientGas,
       set_VM (scenarioContext None 50 callflag.WriteStates)
         {| vm.gasConsumed := 3000; vm.GasLimit := 50; vm.callFlags := callflag.WriteStates |}) /\
  (SyscallHandler tableS4 (scenarioContext None 50 callflag.WriteStates) 42).2 = [Charged 3000] /\
  (SyscallHandler tableS4 (scenarioContext None 3000 callflag.WriteStates) 42).2
    = [Charged 3000; Invoked 42] /\
  Notifications (SyscallHandler tableS4 (scenarioContext None 3000 callflag.WriteStates) 42).1.2
    = [(42, "called")] /\
  SyscallHandler tableS4 (scenarioContext None 3000 callflag.WriteStates) 43
    = (Some ErrSyscallNotFound, scenarioContext None 3000 callflag.WriteStates, []).
Proof. repeat split; reflexivity. Qed.

Lemma SyscallHandler_gates_witness :
  sortedByID tableS4 /\
  registered tableS4 42 = Some function42 /\
  SyscallHandler tableS4 (scenarioContext None 3000 callflag.WriteStates) 42
    = (None,
       (handler42 (set_VM (scenarioContext None 3000 callflag.WriteStates)
          {| vm.gasConsumed := 3000; vm.GasLimit := 3000;
             vm.callFlags := callflag.WriteStates |})).2,
       [Charged 3000; Invoked 42]).
Proof.
  split; [exact tableS4_sorted|]. split; [reflexivity|].
  destruct (SyscallHandler_gates tableS4 (scenarioContext None 3000 callflag.WriteStates) 42
              tableS4_sorted) as [_ H].
  destruct (H function42 eq_refl) as (_ & _ & H3).
  apply H3; reflexivity.
Defined.

(** ** The ledger view *)

Lemma U32_sub_one k : 1 <= k < U32.modulus -> U32.sub k 1 = k - 1.
Proof. intros H. unfold U32.sub, U32.wrap. apply Z.mod_small. lia. Qed.

Lemma U32_sub_zero : U32.sub 0 1 = U32.max.
Proof. reflexivity. Qed.

Lemma U32_add_sub k : 0 <= k < U32.modulus -> U32.add (U32.sub k 1) 1 = k.
Proof.
  intros H. unfold U32.add, U32.sub, U32.wrap.
  rewrite Zplus_mod_idemp_l. replace (k - 1 + 1) with k by lia.
  apply Z.mod_small. exact H.
Qed.

Lemma GetBlock_cases ic hash :
  GetBlock ic hash =
  match LedgerGetBlock (Chain ic) hash with
  | inr err => inr err
  | inl b => if block.Index b >? BlockHeight ic then inr ErrKeyNotFound else inl b
  end.
Proof. reflexivity. Qed.

(** C7, as the specification states it, fails: with no block attached,
    [GetBlock] does not hand over what the ledger returns when the block
    lies above the ledger's own height. *)
Lemma GetBlock_not_forwarded :
  Block (scenarioContext None 0 callflag.NoneFlag) = None /\
  LedgerGetBlock (Chain (scenarioContext None 0 callflag.NoneFlag)) 1005
    = inl (blockAt 5) /\
  GetBlock (scenarioContext None 0 callflag.NoneFlag) 1005 = inr ErrKeyNotFound.
Proof. repeat split; reflexivity. Qed.

(** C7, amended: with a block of index [k] attached, [BlockHeight] is
    [k - 1] in [uint32] arithmetic ([k - 1] itself for [k >= 1]), and
    [GetBlock] returns [KeyNotFound] for every block of the ledger whose
    index is greater and the block itself when its index is at most that;
    with no block attached, [BlockHeight] is the ledger's height and
    [GetBlock] applies the same test with the ledger's height; an error of
    the ledger is passed on in both cases. *)
Theorem ledger_view ic :
  (forall b, Block ic = Some b ->
     BlockHeight ic = U32.sub (block.Index b) 1 /\
     (1 <= block.Index b < U32.modulus -> BlockHeight ic = block.Index b - 1) /\
     forall h blk, LedgerGetBlock (Chain ic) h = inl blk ->
       (block.Index blk > U32.sub (block.Index b) 1 -> GetBlock ic h = inr ErrKeyNotFound) /\
       (block.Index blk <= U32.sub (block.Index b) 1 -> GetBlock ic h = inl blk)) /\
  (Block ic = None ->
     BlockHeight ic = LedgerBlockHeight (Chain ic) /\
     forall h blk, LedgerGetBlock (Chain ic) h = inl blk ->
       (block.Index blk > LedgerBlockHeight (Chain ic) -> GetBlock ic h = inr ErrKeyNotFound) /\
       (block.Index blk <= LedgerBlockHeight (Chain ic) -> GetBlock ic h = inl blk)) /\
  (forall h err, LedgerGetBlock (Chain ic) h = inr err -> GetBlock ic h = inr err).
Proof.
  split; [|split].
  - intros b Hb.
    assert (Hh : BlockHeight ic = U32.sub (block.Index b) 1) by (unfold BlockHeight; rewrite Hb; reflexivity).
    split; [exact Hh|split].
    + intros Hk. rewrite Hh. apply U32_sub_one. exact Hk.
    + intros h blk Hblk. rewrite GetBlock_cases, Hblk, Hh. split; intros Hi.
      * destruct (Z.gtb_spec (block.Index blk) (U32.sub (block.Index b) 1)); [reflexivity|lia].
      * destruct (Z.gtb_spec (block.Index blk) (U32.sub (block.Index b) 1)); [lia|reflexivity].
  - intros Hb.
    assert (Hh : BlockHeight ic = LedgerBlockHeight (Chain ic)) by (unfold BlockHeight; rewrite Hb; reflexivity).
    split; [exact Hh|].
    intros h blk Hblk. rewrite GetBlock_cases, Hblk, Hh. split; intros Hi.
    + destruct (Z.gtb_spec (block.Index blk) (LedgerBlockHeight (Chain ic))); [reflexivity|lia].
    + destruct (Z.gtb_spec (block.Index blk) (LedgerBlockHeight (Chain ic))); [lia|reflexivity].
  - intros h err Herr. rewrite GetBlock_cases, Herr. reflexivity.
Qed.

Lemma ledger_view_witness :
  Block (scenarioContext (Some (blockAt 3)) 0 callflag.NoneFlag)
    = Some (blockAt 3) /\
  BlockHeight (scenarioContext (Some (blockAt 3)) 0 callflag.NoneFlag) = 2 /\
  GetBlock (scenarioContext (Some (blockAt 3)) 0 callflag.NoneFlag) 1005
    = inr ErrKeyNotFound /\
  GetBlock (scenarioContext (Some (blockAt 3)) 0 callflag.NoneFlag) 1002
    = inl (blockAt 2).
Proof.
  pose proof (proj1 (ledger_view (scenarioContext (Some (blockAt 3)) 0 callflag.NoneFlag))
                (blockAt 3) eq_refl) as (Hh & _ & Hget).
  split; [reflexivity|]. split; [exact Hh|]. split.
  - apply (proj1 (Hget 1005 (blockAt 5) eq_refl)). reflexivity.
  - apply (proj2 (Hget 1002 (blockAt 2) eq_refl)). discriminate.
Defined.

(** ** Hardfork tests *)

Section HardforkFacts.
Variable HardforkString : config.Hardfork -> string.

(** [IsHardforkEnabled] holds exactly when the activation height is listed
    and [BlockHeight() + 1], in [uint32] arithmetic, has reached it. *)
Lemma IsHardforkEnabled_true ic hf :
  IsHardforkEnabled HardforkString ic hf = true <->
  exists height, Hardforks ic !! HardforkString hf = Some height /\
                 U32.add (BlockHeight ic) 1 >= height.
Proof.
  unfold IsHardforkEnabled. destruct (Hardforks ic !! HardforkString hf) as [height|].
  - rewrite Z.geb_le. split.
    + intros H. exists height. split; [reflexivity|lia].
    + intros (h' & Hh & H). inversion Hh; subst h'. lia.
  - split; [discriminate|]. intros (h' & Hh & _). discriminate.
Qed.

(** With a block attached, [IsHardforkActivation] returns, and returns
    true exactly when the height is listed and equals the block's index. *)
Lemma IsHardforkActivation_attached ic hf b :
  Block ic = Some b ->
  exists r, IsHardforkActivation HardforkString ic hf = Returns r /\
    (r = true <-> Hardforks ic !! HardforkString hf = Some (block.Index b)).
Proof.
  intros Hb. unfold IsHardforkActivation. rewrite Hb.
  destruct (Hardforks ic !! HardforkString hf) as [height|].
  - exists (block.Index b =? height). split; [reflexivity|]. rewrite Z.eqb_eq. split.
    + intros ->. reflexivity.
    + intros H. inversion H. reflexivity.
  - exists false. split; [reflexivity|]. split; discriminate.
Qed.

(** With no block attached, [IsHardforkActivation] returns false for a
    hardfork that is not listed and panics for one that is. *)
Lemma IsHardforkActivation_detached ic hf :
  Block ic = None ->
  IsHardforkActivation HardforkString ic hf =
  match Hardforks ic !! HardforkString hf with
  | Some _ => Panics
  | None => Returns false
  end.
Proof. intros Hb. unfold IsHardforkActivation. rewrite Hb. reflexivity. Qed.

Lemma IsHardforkEnabled_height ic ic' hf :
  Hardforks ic = Hardforks ic' -> BlockHeight ic = BlockHeight ic' ->
  IsHardforkEnabled HardforkString ic hf = IsHardforkEnabled HardforkString ic' hf.
Proof. intros Hh Hb. unfold IsHardforkEnabled. rewrite Hh, Hb. reflexivity. Qed.

(** C10: with a block of index 0 attached, [BlockHeight] is 4294967295;
    [GetBlock] then hides no block of the ledger, and [GetBlock] and
    [IsHardforkEnabled] answer as they do with no block attached on a
    ledger whose height is 4294967295. *)
Theorem BlockHeight_wraps_at_genesis ic b :
  Block ic = Some b -> block.Index b = 0 ->
  BlockHeight ic = 4294967295 /\
  (forall h blk, LedgerGetBlock (Chain ic) h = inl blk -> block.Index blk < U32.modulus ->
     GetBlock ic h = inl blk) /\
  (forall h, GetBlock ic h = GetBlock (withLedgerHeight ic 4294967295) h) /\
  (forall hf, IsHardforkEnabled HardforkString ic hf
              = IsHardforkEnabled HardforkString (withLedgerHeight ic 4294967295) hf).
Proof.
  intros Hb Hi.
  assert (Hh : BlockHeight ic = 4294967295).
  { unfold BlockHeight. rewrite Hb, Hi. reflexivity. }
  split; [exact Hh|]. split; [|split].
  - intros h blk Hblk Hlt. rewrite GetBlock_cases, Hblk, Hh.
    destruct (Z.gtb_spec (block.Index blk) 4294967295) as [Hgt|]; [|reflexivity].
    unfold U32.modulus in Hlt. lia.
  - intros h. rewrite !GetBlock_cases, Hh. reflexivity.
  - intros hf. apply IsHardforkEnabled_height; [reflexivity|]. rewrite Hh. reflexivity.
Qed.

End HardforkFacts.

Lemma BlockHeight_wraps_at_genesis_witness :
  Block (scenarioContext (Some (blockAt 0)) 0 callflag.NoneFlag)
    = Some (blockAt 0) /\
  block.Index (blockAt 0) = 0 /\
  BlockHeight (scenarioContext (Some (blockAt 0)) 0 callflag.NoneFlag) = 4294967295 /\
  GetBlock (scenarioContext (Some (blockAt 0)) 0 callflag.NoneFlag) 1005
    = inl (blockAt 5).
Proof.
  destruct (BlockHeight_wraps_at_genesis hardforkName
              (scenarioContext (Some (blockAt 0)) 0 callflag.NoneFlag)
              (blockAt 0) eq_refl eq_refl) as (Hh & Hget & _).
  split; [reflexivity|]. split; [reflexivity|]. split; [exact Hh|].
  apply (Hget 1005 (blockAt 5) eq_refl). reflexivity.
Defined.

(** C8, on the code: with no block attached and the hardfork listed in the
    context's map, [IsHardforkActivation] reads the index through the nil
    block and panics, where [IsHardforkEnabled] on the same context
    returns. *)
Theorem IsHardforkActivation_panics_without_block :
  Block (scenarioContext None 0 callflag.NoneFlag) = None /\
  Hardforks (scenarioContext None 0 callflag.NoneFlag) !! hardforkName hfA = Some 5 /\
  IsHardforkActivation hardforkName (scenarioContext None 0 callflag.NoneFlag) hfA = Panics /\
  IsHardforkEnabled hardforkName (scenarioContext None 0 callflag.NoneFlag) hfA = false.
Proof. repeat split; reflexivity. Qed.

(** Scenario S5: block 100 attached, hardfork at height 100. *)
Lemma ledger_view_scenario_S5 :
  let ic := {| Chain := ledgerS5; Network := 0; Hardforks := {[ "A" := 100 ]};
               Block := Some (blockAt 100);
               VM := {| vm.gasConsumed := 0; vm.GasLimit := -1; vm.callFlags := 0 |};
               Notifications := []; baseExecFee := 30; baseStorageFee := 1000 |} in
  BlockHeight ic = 99 /\
  CurrentBlockHash ic = 1099 /\
  IsHardforkEnabled hardforkName ic hfA = true /\
  IsHardforkActivation hardforkName ic hfA = Returns true.
Proof. repeat split; reflexivity. Qed.

(** ** Materialisation over the store *)

Section StoreFacts.
Variable ToID : string -> Z.

Lemma fresh_unused (h : Ptr.store) : h !! fresh (dom h) = None.
Proof. apply not_elem_of_dom. apply is_fresh. Qed.

Lemma buildMethods_grows hf ms : forall h st,
  h ⊆ (Ptr.buildMethods ToID hf ms h st).1.
Proof.
  induction ms as [|m ms IH]; intros h st; cbn [Ptr.buildMethods]; [reflexivity|].
  destruct (negb (isActive (Ptr.ActiveFrom m) hf)); [apply IH|].
  destruct (h !! Ptr.MD (Ptr.HFSpecific m)) as [md|]; [|reflexivity].
  destruct st as [[w abi] acc].
  rewrite insert_insert_eq, lookup_insert_eq.
  etransitivity; [|apply IH].
  apply insert_subseteq. apply fresh_unused.
Qed.

(** The pointers of the table built are locations that the store did not
    hold. *)
Lemma buildMethods_fresh hf ms : forall h0 h st h' st',
  h0 ⊆ h ->
  Forall (fun e => h0 !! Ptr.MD e = None) st.2 ->
  Ptr.buildMethods ToID hf ms h st = (h', Returns st') ->
  Forall (fun e => h0 !! Ptr.MD e = None) st'.2.
Proof.
  induction ms as [|m ms IH]; intros h0 h st h' st' Hsub Hst; cbn [Ptr.buildMethods].
  - intros H. inversion H; subst. exact Hst.
  - destruct (negb (isActive (Ptr.ActiveFrom m) hf)); [apply (IH h0 h st h' st' Hsub Hst)|].
    destruct (h !! Ptr.MD (Ptr.HFSpecific m)) as [md|]; [|discriminate].
    destruct st as [[w abi] acc].
    rewrite insert_insert_eq, lookup_insert_eq.
    apply IH.
    + etransitivity; [exact Hsub|]. apply insert_subseteq. apply fresh_unused.
    + cbn [snd] in *. apply Forall_app. split; [exact Hst|].
      apply Forall_singleton. cbn [Ptr.MD].
      destruct (h0 !! fresh (dom h)) as [x|] eqn:Hx; [|reflexivity].
      pose proof (lookup_weaken _ _ _ _ Hx Hsub) as Hx'.
      rewrite fresh_unused in Hx'. discriminate.
Qed.

(** C9: materialisation changes no descriptor that the store held and
    leaves the tables of the contract as they were; the descriptors of the
    table it builds are copies at locations that were not in the store. *)
Theorem buildHFSpecificMD_keeps_declarations (c : Ptr.ContractMD) hf (h : Ptr.store) :
  h ⊆ (Ptr.buildHFSpecificMD ToID c hf h).1 /\
  Forall (fun m => forall d, derefDecl h m = Some d ->
                   derefDecl (Ptr.buildHFSpecificMD ToID c hf h).1 m = Some d)
    (Ptr.Methods c) /\
  match (Ptr.buildHFSpecificMD ToID c hf h).2 with
  | Returns (md, c') =>
      Ptr.Methods c' = Ptr.Methods c /\ Ptr.Events c' = Ptr.Events c /\
      Forall (fun e => h !! Ptr.MD e = None) (Ptr.HFMethods md)
  | Panics => True
  end.
Proof.
  assert (Hsub : h ⊆ (Ptr.buildHFSpecificMD ToID c hf h).1).
  { unfold Ptr.buildHFSpecificMD.
    pose proof (buildMethods_grows hf (Ptr.Methods c) h ([], [], [])) as Hg.
    destruct (Ptr.buildMethods ToID hf (Ptr.Methods c) h ([], [], [])) as [h' [[[w abi] acc]|]];
      [|exact Hg].
    destruct (fold_left (buildEvent hf) (Ptr.Events c) ([], [])). exact Hg. }
  split; [exact Hsub|]. split.
  - apply Forall_forall. intros m _ d. unfold derefDecl, derefMethod.
    destruct (h !! Ptr.MD (Ptr.HFSpecific m)) as [x|] eqn:Hx; [|discriminate].
    rewrite (lookup_weaken _ _ _ _ Hx Hsub). trivial.
  - unfold Ptr.buildHFSpecificMD.
    destruct (Ptr.buildMethods ToID hf (Ptr.Methods c) h ([], [], []))
      as [h' [[[w abi] acc]|]] eqn:Hb; [|exact I].
    destruct (fold_left (buildEvent hf) (Ptr.Events c) ([], [])) as [abiEvents events].
    cbn [snd]. split; [reflexivity|]. split; [reflexivity|].
    cbn [Ptr.HFMethods].
    apply (buildMethods_fresh hf (Ptr.Methods c) h h ([], [], []) h' (w, abi, acc));
      [reflexivity|constructor|exact Hb].
Qed.

Lemma derefMethod_weaken (h h' : Ptr.store) e v :
  h ⊆ h' -> derefMethod h e = Some v -> derefMethod h' e = Some v.
Proof.
  intros Hsub. unfold derefMethod.
  destruct (h !! Ptr.MD e) as [d|] eqn:Hd; [|discriminate].
  rewrite (lookup_weaken _ _ _ _ Hd Hsub). trivial.
Qed.

Lemma derefDecl_weaken (h h' : Ptr.store) m v :
  h ⊆ h' -> derefDecl h m = Some v -> derefDecl h' m = Some v.
Proof.
  intros Hsub. unfold derefDecl.
  destruct (derefMethod h (Ptr.HFSpecific m)) as [x|] eqn:Hx; [|discriminate].
  rewrite (derefMethod_weaken h h' _ _ Hsub Hx). trivial.
Qed.

Lemma derefDecl_Some (h : Ptr.store) m v :
  derefDecl h m = Some v ->
  h !! Ptr.MD (Ptr.HFSpecific m) = Some (MD (HFSpecific v)) /\
  ActiveFrom v = Ptr.ActiveFrom m /\
  Func (HFSpecific v) = Ptr.Func (Ptr.HFSpecific m) /\
  CPUFee (HFSpecific v) = Ptr.CPUFee (Ptr.HFSpecific m) /\
  StorageFee (HFSpecific v) = Ptr.StorageFee (Ptr.HFSpecific m) /\
  RequiredFlags (HFSpecific v) = Ptr.RequiredFlags (Ptr.HFSpecific m).
Proof.
  unfold derefDecl, derefMethod.
  destruct (h !! Ptr.MD (Ptr.HFSpecific m)) as [d|]; [|discriminate].
  intros H. inversion H; subst v. cbn. repeat split; reflexivity.
Qed.

(** The loop over the store and the loop over values go in step: when
    every declaration can be read, the first does not panic and the table
    it builds, read through the new store, is the table of the second. *)
Lemma buildMethods_refines hf ms : forall vs (h : Ptr.store) w abi acc accv,
  Forall2 (fun m v => derefDecl h m = Some v) ms vs ->
  Forall2 (fun e v => derefMethod h e = Some v) acc accv ->
  exists h' w' abi' acc' accv',
    Ptr.buildMethods ToID hf ms h (w, abi, acc) = (h', Returns (w', abi', acc')) /\
    fold_left (buildMethod ToID hf) vs (w, abi, accv) = (w', abi', accv') /\
    h ⊆ h' /\
    Forall2 (fun e v => derefMethod h' e = Some v) acc' accv'.
Proof.
  induction ms as [|m ms IH]; intros vs h w abi acc accv Hms Hacc.
  - inversion Hms; subst. exists h, w, abi, acc, accv. repeat split; [reflexivity|exact Hacc].
  - inversion Hms as [|m' v ms' vs' Hm Hrest]; subst.
    destruct (derefDecl_Some h m v Hm) as (Hmd & Haf & Hfn & Hcpu & Hsto & Hreq).
    cbn [Ptr.buildMethods fold_left]. unfold buildMethod at 2.
    rewrite <- Haf.
    destruct (negb (isActive (ActiveFrom v) hf)); [apply IH; assumption|].
    rewrite Hmd, insert_insert_eq, lookup_insert_eq.
    set (l := fresh (dom h)).
    set (h1 := <[l := manifest.set_Offset (MD (HFSpecific v)) (Z.of_nat (length w))]> h).
    assert (Hsub : h ⊆ h1) by (apply insert_subseteq, fresh_unused).
    match goal with
    | |- exists _ _ _ _ _,
           Ptr.buildMethods _ _ _ _ (?w1, ?abi1, ?acc1) = _ /\
           fold_left _ _ (_, _, ?accv1) = _ /\ _ =>
        edestruct (IH vs' h1 w1 abi1 acc1 accv1)
          as (h' & w' & abi' & acc' & accv' & Hb & Hf & Hsub' & Hd)
    end.
    + eapply Forall2_impl; [exact Hrest|]. intros x y. apply derefDecl_weaken. exact Hsub.
    + apply Forall2_app.
      * eapply Forall2_impl; [exact Hacc|]. intros x y. apply derefMethod_weaken. exact Hsub.
      * constructor; [|constructor].
        unfold derefMethod. cbn [Ptr.MD Ptr.Func Ptr.CPUFee Ptr.StorageFee
                                 Ptr.SyscallOffset Ptr.RequiredFlags].
        unfold h1. rewrite lookup_insert_eq, <- Hfn, <- Hcpu, <- Hsto, <- Hreq. reflexivity.
    + exists h', w', abi', acc', accv'. split; [exact Hb|]. split; [exact Hf|].
      split; [etransitivity; eassumption|exact Hd].
Qed.

(** Materialisation over the store refines materialisation over values:
    on a contract whose declarations can all be read it returns, and the
    descriptor it builds has the same base (script and manifest), the same
    events and, read through the new store, the same method table. *)
Lemma buildHFSpecificMD_refines (c : Ptr.ContractMD) (cv : ContractMD) hf (h : Ptr.store) :
  Ptr.ID c = ID cv -> Ptr.Hash c = Hash cv -> Ptr.Name c = Name cv ->
  Ptr.Events c = Events cv ->
  Ptr.onManifestConstruction c = onManifestConstruction cv ->
  Forall2 (fun m v => derefDecl h m = Some v) (Ptr.Methods c) (Methods cv) ->
  exists h' md c',
    Ptr.buildHFSpecificMD ToID c hf h = (h', Returns (md, c')) /\
    h ⊆ h' /\
    Ptr.Base md = Base (materialise ToID cv hf) /\
    Ptr.HFEvents md = HFEvents (materialise ToID cv hf) /\
    Forall2 (fun e v => derefMethod h' e = Some v)
      (Ptr.HFMethods md) (HFMethods (materialise ToID cv hf)).
Proof.
  intros Hid Hhash Hname Hev Hcb Hms.
  destruct (buildMethods_refines hf (Ptr.Methods c) (Methods cv) h [] [] [] [] Hms)
    as (h' & w' & abi' & acc' & accv' & Hb & Hf & Hsub & Hd); [constructor|].
  unfold Ptr.buildHFSpecificMD, materialise, buildHFSpecificMD.
  rewrite Hb, Hf, Hev, Hid, Hhash, Hname, Hcb.
  destruct (fold_left (buildEvent hf) (Events cv) ([], [])) as [abiEvents events].
  eexists _, _, _. split; [reflexivity|]. split; [exact Hsub|].
  cbn [fst Ptr.Base Base Ptr.HFEvents HFEvents Ptr.HFMethods HFMethods].
  split; [reflexivity|]. split; [reflexivity|exact Hd].
Qed.

End StoreFacts.

(** A run on a store with one descriptor: the copy goes to a new location
    with its offset set, the descriptor of the declaration keeps its own. *)
Lemma buildHFSpecificMD_scenario_S9 :
  exists md c',
    Ptr.buildHFSpecificMD callNativeID contractS9 None storeS9
      = (<[2%positive := descriptor "foo" []]> storeS9, Returns (md, c')) /\
    map Ptr.MD (Ptr.HFMethods md) = [2%positive] /\
    (<[2%positive := descriptor "foo" []]> storeS9) !! 1%positive
      = Some (manifest.set_Offset (descriptor "foo" []) 77).
Proof. eexists _, _. split; [|split]; reflexivity. Qed.

(** * Further properties *)

(** ** Registration *)

Lemma AddMethod_Methods_eq c md desc :
  Methods (AddMethod c md desc) =
  take (Search (length (Methods c)) (insertBefore (markSafe md desc) (Methods c))) (Methods c)
  ++ attach md (markSafe md desc)
  :: drop (Search (length (Methods c)) (insertBefore (markSafe md desc) (Methods c))) (Methods c).
Proof. reflexivity. Qed.

Lemma AddMethod_Permutation c md desc :
  Methods (AddMethod c md desc) ≡ₚ attach md (markSafe md desc) :: Methods c.
Proof.
  rewrite AddMethod_Methods_eq. rewrite <- Permutation_middle.
  rewrite take_drop. reflexivity.
Qed.

(** X1: [AddMethod] keeps every declaration that the table holds and adds
    the new one, with the descriptor attached, once: the new table is a
    permutation of the new declaration and the old table, whatever the
    order of the old table was; the events are untouched. *)
Theorem AddMethod_adds_one c md desc :
  Methods (AddMethod c md desc) ≡ₚ attach md (markSafe md desc) :: Methods c /\
  length (Methods (AddMethod c md desc)) = S (length (Methods c)) /\
  Events (AddMethod c md desc) = Events c /\
  mdCache (AddMethod c md desc) = mdCache c.
Proof.
  split; [apply AddMethod_Permutation|]. split; [|split; reflexivity].
  rewrite (Permutation_length (AddMethod_Permutation c md desc)). reflexivity.
Qed.

Lemma safe_flags flags :
  (Z.land flags (Z.lxor callflag.All callflag.ReadOnly) =? 0) = true <->
  Z.land flags callflag.WriteStates = 0 /\ Z.land flags callflag.AllowNotify = 0.
Proof.
  change (Z.lxor callflag.All callflag.ReadOnly)
    with (Z.lor callflag.WriteStates callflag.AllowNotify).
  rewrite Z.eqb_eq, Z.land_lor_distr_r. apply Z.lor_eq_0_iff.
Qed.

Lemma AddMethod_safeAsFlags c md desc :
  Forall safeAsFlags (Methods c) -> Forall safeAsFlags (Methods (AddMethod c md desc)).
Proof.
  intros H. rewrite (AddMethod_Permutation c md desc).
  constructor; [|exact H]. unfold safeAsFlags. cbn. apply safe_flags.
Qed.

Lemma register_safeAsFlags c r :
  Forall safeAsFlags (Methods c) -> Forall safeAsFlags (Methods (register c r)).
Proof.
  destruct r as [md desc|e]; [apply AddMethod_safeAsFlags|trivial].
Qed.

Section RegistrationFacts.
Variable hash : string -> Z.

(** X2: in a contract built by [NewContractMD] and any run of [AddMethod]
    and [AddEvent] calls, each with a descriptor of its own, a method is
    marked safe exactly when its required flags hold neither [WriteStates]
    nor [AllowNotify]. *)
Theorem AddMethod_marks_safe cname id cb rs :
  Forall safeAsFlags (Methods (registerSeq (NewContractMD hash cname id cb) rs)).
Proof.
  unfold registerSeq.
  assert (H : Forall safeAsFlags (Methods (NewContractMD hash cname id cb))) by constructor.
  revert H. generalize (NewContractMD hash cname id cb).
  induction rs as [|r rs IH]; intros c H; [exact H|].
  apply IH, register_safeAsFlags, H.
Qed.

Lemma register_activation c r :
  (forall h, h ∈ ActiveHFs c <-> activationOf c h) ->
  forall h, h ∈ ActiveHFs (register c r) <-> activationOf (register c r) h.
Proof.
  intros Hc h. unfold activationOf. destruct r as [md desc|e].
  - cbn [register]. change (Events (AddMethod c md desc)) with (Events c).
    setoid_rewrite (AddMethod_Permutation c md desc).
    setoid_rewrite elem_of_cons.
    change (ActiveHFs (AddMethod c md desc))
      with (match ActiveFrom md with Some a => {[a]} ∪ ActiveHFs c | None => ActiveHFs c end).
    destruct (ActiveFrom md) as [a|] eqn:Ha.
    + rewrite elem_of_union, elem_of_singleton, Hc. unfold activationOf. split.
      * intros [->|[(m & Hm & Hh)|He]].
        -- left. exists (attach md (markSafe md desc)). split; [left; reflexivity|exact Ha].
        -- left. exists m. auto.
        -- right. exact He.
      * intros [(m & [->|Hm] & Hh)|He].
        -- left. cbn in Hh. congruence.
        -- right. left. exists m. auto.
        -- right. right. exact He.
    + rewrite Hc. unfold activationOf. split.
      * intros [(m & Hm & Hh)|He]; [left; exists m; auto|right; exact He].
      * intros [(m & [->|Hm] & Hh)|He].
        -- cbn in Hh. congruence.
        -- left. exists m. auto.
        -- right. exact He.
  - cbn [register]. change (Methods (AddEvent c e)) with (Methods c).
    change (Events (AddEvent c e)) with (Events c ++ [e]).
    setoid_rewrite elem_of_app. setoid_rewrite list_elem_of_singleton.
    change (ActiveHFs (AddEvent c e))
      with (match EventActiveFrom e with Some a => {[a]} ∪ ActiveHFs c | None => ActiveHFs c end).
    destruct (EventActiveFrom e) as [a|] eqn:Ha.
    + rewrite elem_of_union, elem_of_singleton, Hc. unfold activationOf. split.
      * intros [->|[Hm|(e' & He & Hh)]].
        -- right. exists e. auto.
        -- left. exact Hm.
        -- right. exists e'. auto.
      * intros [Hm|(e' & [He| ->] & Hh)].
        -- right. left. exact Hm.
        -- right. right. exists e'. auto.
        -- left. congruence.
    + rewrite Hc. unfold activationOf. split.
      * intros [Hm|(e' & He & Hh)]; [left; exact Hm|right; exists e'; auto].
      * intros [Hm|(e' & [He| ->] & Hh)].
        -- left. exact Hm.
        -- right. exists e'. auto.
        -- congruence.
Qed.

(** X3: in a contract built by [NewContractMD] and any run of [AddMethod]
    and [AddEvent] calls, [ActiveHFs] holds exactly the hardforks that some
    method or some event of the contract is active from. *)
Theorem ActiveHFs_are_activations cname id cb rs h :
  h ∈ ActiveHFs (registerSeq (NewContractMD hash cname id cb) rs) <->
  activationOf (registerSeq (NewContractMD hash cname id cb) rs) h.
Proof.
  unfold registerSeq. revert h.
  assert (H : forall h, h ∈ ActiveHFs (NewContractMD hash cname id cb)
                        <-> activationOf (NewContractMD hash cname id cb) h).
  { intros h. unfold activationOf. cbn. split.
    - intros Hh. apply elem_of_empty in Hh. destruct Hh.
    - intros [(m & Hm & _)|(e & He & _)]; [apply elem_of_nil in Hm|apply elem_of_nil in He];
        contradiction. }
  revert H. generalize (NewContractMD hash cname id cb).
  induction rs as [|r rs IH]; intros c H; [exact H|].
  apply IH, register_activation, H.
Qed.

Lemma registerSeq_Events rs : forall c,
  Events (registerSeq c rs) = Events c ++ eventsOf rs.
Proof.
  induction rs as [|r rs IH]; intros c; [cbn; rewrite app_nil_r; reflexivity|].
  change (registerSeq c (r :: rs)) with (registerSeq (register c r) rs). rewrite IH.
  destruct r as [md desc|e].
  - reflexivity.
  - change (Events (register c (RegEvent e))) with (Events c ++ [e]).
    rewrite <- app_assoc. reflexivity.
Qed.

Lemma registerSeq_keeps_sorted rs : forall c,
  declsSorted methodLe (Methods c) -> declsSorted methodLe (Methods (registerSeq c rs)).
Proof.
  induction rs as [|r rs IH]; intros c Hs; [exact Hs|].
  apply IH. destruct r as [md desc|e]; [apply AddMethod_keeps_sorted; exact Hs|exact Hs].
Qed.

End RegistrationFacts.

(** ** Materialisation *)

Lemma stemsFrom_entryAt off m : stemsFrom (entryAt off m) m.
Proof. repeat split. Qed.

Lemma filter_sublist {A} (f : A -> bool) (l : list A) : List.filter f l `sublist_of` l.
Proof.
  induction l as [|x l IH]; cbn [List.filter]; [constructor|].
  destruct (f x); [apply sublist_skip|apply sublist_cons]; exact IH.
Qed.

Lemma entriesFrom_stem kept : forall off, Forall2 stemsFrom (entriesFrom off kept) kept.
Proof.
  induction kept as [|m kept IH]; intros off; cbn [entriesFrom]; constructor.
  - apply stemsFrom_entryAt.
  - apply IH.
Qed.

Section MaterialiseMore.
Variable ToID : string -> Z.
Variable hash : string -> Z.

(** X4: the method table of a materialised descriptor lists declarations
    of the contract in the order of the contract, none twice: there is a
    sublist of [c.Methods] whose members, one by one, the entries stem
    from, with function, name, parameters, return type, safe mark, fees
    and required flags unchanged; the event table is the sublist of
    [c.Events] of the events kept. *)
Theorem materialise_in_declaration_order c hf :
  exists kept keptE,
    kept `sublist_of` Methods c /\
    Forall2 stemsFrom (HFMethods (materialise ToID c hf)) kept /\
    keptE `sublist_of` Events c /\
    HFEvents (materialise ToID c hf) = map EventHFSpecific keptE.
Proof.
  exists (keptMethods hf (Methods c)), (keptEvents hf (Events c)).
  rewrite materialise_HFMethods, materialise_HFEvents.
  split; [apply filter_sublist|]. split; [apply entriesFrom_stem|].
  split; [apply filter_sublist|reflexivity].
Qed.

(** X5: a method or an event with no activation hardfork is in the
    descriptor of every hardfork key, and the descriptor of the nil key
    holds nothing else. *)
Theorem materialise_always_active c hf :
  Forall (fun m => ActiveFrom m = None ->
            exists e, e ∈ HFMethods (materialise ToID c hf) /\ stemsFrom e m) (Methods c) /\
  Forall (fun e => exists m, m ∈ Methods c /\ ActiveFrom m = None /\ stemsFrom e m)
    (HFMethods (materialise ToID c None)) /\
  Forall (fun ev => EventActiveFrom ev = None ->
            EventHFSpecific ev ∈ HFEvents (materialise ToID c hf)) (Events c) /\
  Forall (fun e => exists ev, ev ∈ Events c /\ EventActiveFrom ev = None /\
                              e = EventHFSpecific ev)
    (HFEvents (materialise ToID c None)).
Proof.
  rewrite !materialise_HFMethods, !materialise_HFEvents.
  split; [|split; [|split]].
  - apply Forall_forall. intros m Hm Hnone.
    assert (Hk : m ∈ keptMethods hf (Methods c)).
    { apply keptMethods_elem. split; [exact Hm|]. rewrite Hnone. reflexivity. }
    apply list_elem_of_lookup in Hk as [i Hi].
    exists (entryAt (0 + 8 * i) m). split; [|apply stemsFrom_entryAt].
    apply list_elem_of_lookup. exists i. apply entriesFrom_lookup. eauto.
  - apply Forall_lookup. intros i e He.
    apply entriesFrom_lookup in He as (m & Hm & ->).
    apply list_elem_of_lookup_2 in Hm. apply keptMethods_elem in Hm as [Hin Hact].
    exists m. split; [exact Hin|]. split; [|apply stemsFrom_entryAt].
    destruct (ActiveFrom m); [discriminate|reflexivity].
  - apply Forall_forall. intros ev Hev Hnone.
    apply list_elem_of_fmap. exists ev. split; [reflexivity|].
    unfold keptEvents. apply list_elem_of_In, List.filter_In.
    split; [apply list_elem_of_In; exact Hev|]. rewrite Hnone. reflexivity.
  - apply Forall_forall. intros e He.
    apply list_elem_of_fmap in He as (ev & -> & Hev).
    unfold keptEvents in Hev. apply list_elem_of_In, List.filter_In in Hev as [Hin Hact].
    exists ev. split; [apply list_elem_of_In; exact Hin|]. split; [|reflexivity].
    destruct (EventActiveFrom ev); [discriminate|reflexivity].
Qed.

(** X6: the manifest of a materialised descriptor is built from the
    tables of that descriptor: its ABI methods are the descriptors of the
    method table, offsets included, its ABI events those of the event
    table, in the same order, set on the default manifest of the
    contract's name, and the finaliser of the contract, when there is
    one, is applied once to this manifest; id and hash are the
    contract's. *)
Theorem materialise_manifest c hf :
  BaseManifest (Base (materialise ToID c hf)) =
    (let m := {| manifest.MName := manifest.MName (manifest.DefaultManifest (Name c));
                 manifest.ABIMethods := map MD (HFMethods (materialise ToID c hf));
                 manifest.ABIEvents := map EventMD (HFEvents (materialise ToID c hf)) |} in
     match onManifestConstruction c with Some cb => cb m | None => m end) /\
  BaseID (Base (materialise ToID c hf)) = ID c /\
  BaseHash (Base (materialise ToID c hf)) = Hash c /\
  Tokens (BaseNEF (Base (materialise ToID c hf))) = [].
Proof.
  rewrite materialise_HFMethods, materialise_HFEvents.
  unfold materialise, buildHFSpecificMD. rewrite fold_buildMethod, fold_buildEvent.
  cbn. rewrite map_map. repeat split; reflexivity.
Qed.

(** X7: the events of a contract built by [NewContractMD] and any run of
    [AddMethod] and [AddEvent] calls are the events given to [AddEvent],
    in the order of the calls, and the event table of a materialised
    descriptor keeps that order. *)
Theorem AddEvent_keeps_call_order cname id cb rs hf :
  Events (registerSeq (NewContractMD hash cname id cb) rs) = eventsOf rs /\
  HFEvents (materialise ToID (registerSeq (NewContractMD hash cname id cb) rs) hf)
    = map EventHFSpecific (keptEvents hf (eventsOf rs)).
Proof.
  rewrite materialise_HFEvents, registerSeq_Events. split; reflexivity.
Qed.

Lemma entry_syscall_offset kept off i e :
  entriesFrom off kept !! i = Some e -> SyscallOffset e = Z.of_nat (off + 8 * i) + 2.
Proof. intros H. apply entriesFrom_lookup in H as (m & _ & ->). reflexivity. Qed.

(** X8: in a materialised descriptor no two methods have the same syscall
    offset, [GetMethodByOffset] at the syscall offset of a method of the
    table returns that method, and whatever [GetMethodByOffset] returns is
    a method of the table with the offset asked for. *)
Theorem GetMethodByOffset_finds c hf :
  NoDup (map SyscallOffset (HFMethods (materialise ToID c hf))) /\
  Forall (fun m => GetMethodByOffset (materialise ToID c hf) (SyscallOffset m) = Some m)
    (HFMethods (materialise ToID c hf)) /\
  (forall off m, GetMethodByOffset (materialise ToID c hf) off = Some m ->
     m ∈ HFMethods (materialise ToID c hf) /\ SyscallOffset m = off).
Proof.
  split; [|split].
  - apply NoDup_alt. intros i j x Hi Hj.
    rewrite list_lookup_fmap in Hi, Hj. rewrite materialise_HFMethods in Hi, Hj.
    destruct (entriesFrom _ _ !! i) as [ei|] eqn:Hei; [|discriminate].
    destruct (entriesFrom _ _ !! j) as [ej|] eqn:Hej; [|discriminate].
    apply entry_syscall_offset in Hei. apply entry_syscall_offset in Hej.
    cbn in Hi, Hj. inversion Hi. inversion Hj. lia.
  - apply Forall_lookup. intros i m Hm. unfold GetMethodByOffset.
    apply (find_first _ _ i m Hm); [apply Z.eqb_refl|].
    intros k y Hk Hy. apply Z.eqb_neq.
    rewrite materialise_HFMethods in Hm, Hy.
    apply entry_syscall_offset in Hm. apply entry_syscall_offset in Hy. lia.
  - intros off m H. unfold GetMethodByOffset in H. apply List.find_some in H as [Hin Heq].
    split; [apply list_elem_of_In; exact Hin|apply Z.eqb_eq; exact Heq].
Qed.

End MaterialiseMore.

(** ** Lookup *)

Lemma registerSeq_keeps_member rs : forall c m,
  m ∈ Methods c -> m ∈ Methods (registerSeq c rs).
Proof.
  induction rs as [|r rs IH]; intros c m Hm; [exact Hm|].
  apply IH. destruct r as [md desc|e]; [|exact Hm].
  cbn [register]. rewrite AddMethod_Permutation. right. exact Hm.
Qed.

Section LookupFacts.
Variable ToID : string -> Z.
Variable hash : string -> Z.

(** X9: a method added by [AddMethod] with no activation hardfork is found:
    in the descriptor of any hardfork key, materialised after any further
    registrations, [GetMethod] with its name and its number of parameters
    returns a method of that name and that number of parameters, and
    [GetMethod] with its name and [-1] returns a method of that name. *)
Theorem AddMethod_then_GetMethod cname id cb rs md desc rs' hf :
  ActiveFrom md = None ->
  let h := materialise ToID
             (registerSeq (AddMethod (registerSeq (NewContractMD hash cname id cb) rs) md desc) rs')
             hf in
  (exists m, GetMethod h (manifest.Name desc) (Z.of_nat (length (manifest.Params desc))) = Some m /\
             methodName m = manifest.Name desc /\
             paramCount m = length (manifest.Params desc)) /\
  (exists m, GetMethod h (manifest.Name desc) (-1) = Some m /\
             methodName m = manifest.Name desc).
Proof.
  intros Hnone h.
  set (c1 := AddMethod (registerSeq (NewContractMD hash cname id cb) rs) md desc) in *.
  set (c := registerSeq c1 rs') in *.
  assert (Hsorted : declsSorted methodLe (Methods c)).
  { apply registerSeq_keeps_sorted, AddMethod_keeps_sorted, registerSeq_keeps_sorted.
    constructor. }
  assert (Hs : StronglySorted methodLe (HFMethods h)) by (apply materialise_sorted, Hsorted).
  assert (Hin1 : attach md (markSafe md desc) ∈ Methods c1).
  { subst c1. rewrite AddMethod_Permutation. left. }
  assert (Hin : attach md (markSafe md desc) ∈ Methods c).
  { subst c. apply registerSeq_keeps_member. exact Hin1. }
  assert (Hk : attach md (markSafe md desc) ∈ keptMethods hf (Methods c)).
  { apply keptMethods_elem. split; [exact Hin|]. cbn. rewrite Hnone. reflexivity. }
  apply list_elem_of_lookup in Hk as [i Hi].
  assert (He : HFMethods h !! i = Some (entryAt (0 + 8 * i) (attach md (markSafe md desc)))).
  { subst h. rewrite materialise_HFMethods. apply entriesFrom_lookup. eauto. }
  split.
  - destruct (GetMethod_sorted h (manifest.Name desc)
                (Z.of_nat (length (manifest.Params desc))) i _ Hs He)
      as (j & m & _ & _ & Hget & _); [split; [reflexivity|right; reflexivity]|].
    exists m. split; [exact Hget|].
    destruct (GetMethod_sound _ _ _ _ Hget) as [_ [Hn [Hp|Hp]]]; [lia|].
    split; [exact Hn|lia].
  - destruct (GetMethod_sorted h (manifest.Name desc) (-1) i _ Hs He)
      as (j & m & _ & _ & Hget & _); [split; [reflexivity|left; reflexivity]|].
    exists m. split; [exact Hget|].
    destruct (GetMethod_sound _ _ _ _ Hget) as [_ [Hn _]]. exact Hn.
Qed.

End LookupFacts.

(** X10: on any table, sorted or not, [GetMethod] returns only a method of
    the table with the name asked for and, unless [-1] was given, the
    number of parameters asked for; with a negative number other than
    [-1] it returns nothing. *)
Theorem GetMethod_never_wrong h name n :
  (forall m, GetMethod h name n = Some m ->
     m ∈ HFMethods h /\ methodName m = name /\
     (n = -1 \/ Z.of_nat (paramCount m) = n)) /\
  (n < -1 -> GetMethod h name n = None).
Proof.
  split.
  - intros m Hm. destruct (GetMethod_sound h name n m Hm) as [Hin [Hn Hp]]. auto.
  - intros Hneg. destruct (GetMethod h name n) as [m|] eqn:Hm; [|reflexivity].
    destruct (GetMethod_sound h name n m Hm) as [_ [_ [Hp|Hp]]]; lia.
Qed.

(** ** The cache of descriptors *)

Section CacheFacts.
Variable ToID : string -> Z.

Lemma buildHFSpecificMD_cache c hf :
  mdCache (buildHFSpecificMD ToID c hf).2
    = <[cacheKey hf := (buildHFSpecificMD ToID c hf).1]> (mdCache c).
Proof.
  unfold buildHFSpecificMD. rewrite fold_buildMethod, fold_buildEvent. reflexivity.
Qed.

Lemma buildHFSpecificMD_frame c hf :
  Methods (buildHFSpecificMD ToID c hf).2 = Methods c /\
  Events (buildHFSpecificMD ToID c hf).2 = Events c /\
  ActiveHFs (buildHFSpecificMD ToID c hf).2 = ActiveHFs c.
Proof.
  unfold buildHFSpecificMD. rewrite fold_buildMethod, fold_buildEvent. repeat split.
Qed.

Lemma HFSpecificContractMD_of_hit c hf md :
  mdCache c !! cacheKey hf = Some md -> HFSpecificContractMD_of ToID c hf = (md, c).
Proof. intros H. unfold HFSpecificContractMD_of. rewrite H. reflexivity. Qed.

Lemma HFSpecificContractMD_of_miss c hf :
  mdCache c !! cacheKey hf = None ->
  HFSpecificContractMD_of ToID c hf = buildHFSpecificMD ToID c hf.
Proof. intros H. unfold HFSpecificContractMD_of. rewrite H. reflexivity. Qed.

Lemma HFSpecificContractMD_of_stored c hf :
  mdCache (HFSpecificContractMD_of ToID c hf).2 !! cacheKey hf
    = Some (HFSpecificContractMD_of ToID c hf).1.
Proof.
  destruct (mdCache c !! cacheKey hf) as [md|] eqn:Hc.
  - rewrite (HFSpecificContractMD_of_hit c hf md Hc). exact Hc.
  - rewrite (HFSpecificContractMD_of_miss c hf Hc), buildHFSpecificMD_cache.
    apply lookup_insert_eq.
Qed.

(** X11: [HFSpecificContractMD] answers from the cache once it has
    answered: a second call with the same key returns the descriptor of
    the first and leaves the contract as the first left it; the first call
    changes neither the methods, the events nor the hardforks of the
    contract, and no cache entry under another key. *)
Theorem HFSpecificContractMD_cached c hf :
  HFSpecificContractMD_of ToID (HFSpecificContractMD_of ToID c hf).2 hf
    = HFSpecificContractMD_of ToID c hf /\
  Methods (HFSpecificContractMD_of ToID c hf).2 = Methods c /\
  Events (HFSpecificContractMD_of ToID c hf).2 = Events c /\
  ActiveHFs (HFSpecificContractMD_of ToID c hf).2 = ActiveHFs c /\
  (forall k, k <> cacheKey hf ->
     mdCache (HFSpecificContractMD_of ToID c hf).2 !! k = mdCache c !! k).
Proof.
  destruct (mdCache c !! cacheKey hf) as [md|] eqn:Hc.
  - rewrite (HFSpecificContractMD_of_hit c hf md Hc). cbn [fst snd].
    rewrite (HFSpecificContractMD_of_hit c hf md Hc). repeat split; reflexivity.
  - rewrite (HFSpecificContractMD_of_miss c hf Hc).
    destruct (buildHFSpecificMD_frame c hf) as (Hm & He & Ha).
    split; [|split; [exact Hm|split; [exact He|split; [exact Ha|]]]].
    + rewrite (HFSpecificContractMD_of_hit _ hf (buildHFSpecificMD ToID c hf).1).
      * destruct (buildHFSpecificMD ToID c hf); reflexivity.
      * rewrite buildHFSpecificMD_cache. apply lookup_insert_eq.
    + intros k Hk. rewrite buildHFSpecificMD_cache, lookup_insert_ne by congruence.
      reflexivity.
Qed.

(** X12: a registration does not reach the cache: after [AddMethod] or
    [AddEvent] on a contract, [HFSpecificContractMD] still returns the
    descriptor cached before, which was built without the new member. *)
Theorem HFSpecificContractMD_stale c hf r :
  (HFSpecificContractMD_of ToID (register (HFSpecificContractMD_of ToID c hf).2 r) hf).1
    = (HFSpecificContractMD_of ToID c hf).1 /\
  mdCache (register c r) = mdCache c.
Proof.
  split; [|destruct r; reflexivity].
  rewrite (HFSpecificContractMD_of_hit _ hf (HFSpecificContractMD_of ToID c hf).1);
    [reflexivity|].
  replace (mdCache (register (HFSpecificContractMD_of ToID c hf).2 r))
    with (mdCache (HFSpecificContractMD_of ToID c hf).2) by (destruct r; reflexivity).
  apply HFSpecificContractMD_of_stored.
Qed.

End CacheFacts.

(** ** The function table and dispatch *)

Lemma GetFunction_sound fs id f :
  GetFunction fs id = Some f -> f ∈ fs /\ FID f = id.
Proof.
  unfold GetFunction.
  destruct (_ <? _)%nat; [|discriminate].
  destruct (fs !! _) as [g|] eqn:Hg; [|discriminate].
  destruct (Z.eqb_spec (FID g) id) as [Heq|]; [|discriminate].
  intros H. inversion H; subst g. split; [|exact Heq].
  eapply list_elem_of_lookup_2. exact Hg.
Qed.

(** X13: on any table, sorted or not, [GetFunction] returns only a
    function of the table with the id asked for, and nothing when no
    function of the table has that id. *)
Theorem GetFunction_never_wrong fs id :
  (forall f, GetFunction fs id = Some f -> f ∈ fs /\ FID f = id) /\
  ((forall f, f ∈ fs -> FID f <> id) -> GetFunction fs id = None).
Proof.
  split; [intros f; apply GetFunction_sound|].
  intros Hnone. destruct (GetFunction fs id) as [f|] eqn:Hf; [|reflexivity].
  destruct (GetFunction_sound fs id f Hf) as [Hin Hid]. destruct (Hnone f Hin Hid).
Qed.

(** X14: on a table sorted by id whose ids are distinct, [GetFunction] at
    the id of a function of the table returns that function. *)
Theorem GetFunction_finds fs :
  sortedByID fs -> NoDup (map FID fs) ->
  Forall (fun f => GetFunction fs (FID f) = Some f) fs.
Proof.
  intros Hs Hnd. apply Forall_lookup. intros i f Hf.
  rewrite (GetFunction_registered fs (FID f) Hs). unfold registered.
  apply (find_first _ fs i f Hf); [apply Z.eqb_refl|].
  intros k y Hk Hy. apply Z.eqb_neq. intros Heq.
  assert (k = i); [|lia].
  apply (proj1 (NoDup_alt (map FID fs)) Hnd k i (FID f)).
  - rewrite list_lookup_fmap, Hy. cbn. congruence.
  - rewrite list_lookup_fmap, Hf. reflexivity.
Qed.

Lemma tableS4_distinct : NoDup (map FID tableS4).
Proof.
  cbn. apply NoDup_cons. split; [|apply NoDup_singleton].
  intros H. apply list_elem_of_singleton in H. discriminate.
Qed.

Lemma GetFunction_finds_witness :
  sortedByID tableS4 /\ NoDup (map FID tableS4) /\
  Forall (fun f => GetFunction tableS4 (FID f) = Some f) tableS4.
Proof.
  split; [exact tableS4_sorted|]. split; [exact tableS4_distinct|].
  exact (GetFunction_finds tableS4 tableS4_sorted tableS4_distinct).
Defined.

(** X15: on any table, sorted or not, a dispatch either charges nothing,
    invokes nothing and leaves the context as it is, failing with
    [SyscallNotFound] or [MissingCallFlags]; or it has found a function
    [f] of the table with the id asked for whose flags the current frame
    holds, has charged [f.price * base_exec_fee] once, and then has
    either failed with [InsufficientGas] without invoking a handler, the
    budget being exceeded, or invoked the handler of [f], and no other,
    once on the charged context and returned what it returned. *)
Theorem SyscallHandler_never_unchecked fs ic id :
  ((SyscallHandler fs ic id).2 = [] /\ (SyscallHandler fs ic id).1.2 = ic /\
   ((SyscallHandler fs ic id).1.1 = Some ErrSyscallNotFound \/
    exists req, (SyscallHandler fs ic id).1.1
                = Some (ErrMissingCallFlags (vm.GetCallFlags (VM ic)) req))) \/
  (exists f, f ∈ fs /\ FID f = id /\
     callflag.Has (vm.GetCallFlags (VM ic)) (FRequiredFlags f) = true /\
     let gas := I64.mul (FPrice f) (BaseExecFee ic) in
     let charged := set_VM ic (vm.AddGas (VM ic) gas).1 in
     ((vm.AddGas (VM ic) gas).2 = false /\
      SyscallHandler fs ic id = (Some ErrInsufficientGas, charged, [Charged gas])) \/
     ((vm.AddGas (VM ic) gas).2 = true /\
      SyscallHandler fs ic id = (FFunc f charged, [Charged gas; Invoked id]))).
Proof.
  unfold SyscallHandler.
  destruct (GetFunction fs id) as [f|] eqn:Hf.
  2: { left. cbn. auto. }
  destruct (GetFunction_sound fs id f Hf) as [Hin Hid].
  destruct (callflag.Has (vm.GetCallFlags (VM ic)) (FRequiredFlags f)) eqn:Hflags; cbn [negb].
  2: { left. cbn. split; [reflexivity|]. split; [reflexivity|]. right. eauto. }
  right. exists f. split; [exact Hin|]. split; [exact Hid|]. split; [exact Hflags|].
  cbv zeta.
  destruct (vm.AddGas (VM ic) (I64.mul (FPrice f) (BaseExecFee ic))) as [v ok] eqn:Hgas.
  cbn [fst snd]. destruct ok; cbn [negb].
  - right. split; [reflexivity|].
    destruct (FFunc f (set_VM ic v)) as [res ic']. rewrite Hid. reflexivity.
  - left. split; reflexivity.
Qed.

(** ** Hardfork tests at a block *)

Section HardforkMore.
Variable HardforkString : config.Hardfork -> string.

Lemma IsHardforkEnabled_attached ic b hf :
  Block ic = Some b -> 0 <= block.Index b < U32.modulus ->
  (IsHardforkEnabled HardforkString ic hf = true <->
   exists height, Hardforks ic !! HardforkString hf = Some height /\
                  height <= block.Index b).
Proof.
  intros Hb Hk. rewrite IsHardforkEnabled_true.
  assert (Hh : U32.add (BlockHeight ic) 1 = block.Index b).
  { unfold BlockHeight. rewrite Hb. apply U32_add_sub. exact Hk. }
  rewrite Hh. split; intros (height & Hl & Hle); exists height; split; auto; lia.
Qed.

(** X16: with a block attached whose index [k] is a [uint32], genesis
    included, [IsHardforkEnabled] holds exactly when the hardfork is
    listed with a height of at most [k]: the step back in [BlockHeight]
    and the step forward in the test cancel, also where they wrap. *)
Theorem IsHardforkEnabled_at_block ic b hf :
  Block ic = Some b -> 0 <= block.Index b < U32.modulus ->
  (IsHardforkEnabled HardforkString ic hf = true <->
   exists height, Hardforks ic !! HardforkString hf = Some height /\
                  height <= block.Index b).
Proof. apply IsHardforkEnabled_attached. Qed.

(** X17: with a block attached whose index is a [uint32], a hardfork whose
    activation [IsHardforkActivation] reports at this block is enabled at
    this block, and a hardfork enabled at a block is enabled, under the
    same list of hardforks, at every later block. *)
Theorem IsHardforkEnabled_from_activation ic b hf :
  Block ic = Some b -> 0 <= block.Index b < U32.modulus ->
  (IsHardforkActivation HardforkString ic hf = Returns true ->
   IsHardforkEnabled HardforkString ic hf = true) /\
  (forall ic' b', Hardforks ic' = Hardforks ic -> Block ic' = Some b' ->
     block.Index b <= block.Index b' < U32.modulus ->
     IsHardforkEnabled HardforkString ic hf = true ->
     IsHardforkEnabled HardforkString ic' hf = true).
Proof.
  intros Hb Hk. split.
  - intros Hact. apply (IsHardforkEnabled_attached ic b hf Hb Hk).
    destruct (IsHardforkActivation_attached HardforkString ic hf b Hb) as (r & Hr & Hiff).
    rewrite Hr in Hact. inversion Hact; subst r.
    exists (block.Index b). split; [apply Hiff; reflexivity|lia].
  - intros ic' b' Hhf Hb' Hk' Hen.
    apply (IsHardforkEnabled_attached ic b hf Hb Hk) in Hen as (height & Hl & Hle).
    apply (IsHardforkEnabled_attached ic' b' hf Hb'); [lia|].
    exists height. rewrite Hhf. split; [exact Hl|lia].
Qed.

End HardforkMore.

Lemma IsHardforkEnabled_at_block_witness :
  Block (scenarioContext (Some (blockAt 0)) 0 callflag.NoneFlag) = Some (blockAt 0) /\
  0 <= block.Index (blockAt 0) < U32.modulus /\
  (IsHardforkEnabled hardforkName (scenarioContext (Some (blockAt 0)) 0 callflag.NoneFlag) hfA
     = true <->
   exists height,
     Hardforks (scenarioContext (Some (blockAt 0)) 0 callflag.NoneFlag) !! hardforkName hfA
       = Some height /\ height <= block.Index (blockAt 0)).
Proof.
  split; [reflexivity|]. split; [cbn; unfold U32.modulus; lia|].
  apply (IsHardforkEnabled_at_block hardforkName
           (scenarioContext (Some (blockAt 0)) 0 callflag.NoneFlag) (blockAt 0) hfA eq_refl).
  cbn. unfold U32.modulus. lia.
Defined.

Lemma IsHardforkEnabled_from_activation_witness :
  Block (scenarioContext (Some (blockAt 5)) 0 callflag.NoneFlag) = Some (blockAt 5) /\
  0 <= block.Index (blockAt 5) < U32.modulus /\
  IsHardforkActivation hardforkName (scenarioContext (Some (blockAt 5)) 0 callflag.NoneFlag) hfA
    = Returns true /\
  IsHardforkEnabled hardforkName (scenarioContext (Some (blockAt 5)) 0 callflag.NoneFlag) hfA
    = true.
Proof.
  assert (Hk : 0 <= block.Index (blockAt 5) < U32.modulus) by (cbn; unfold U32.modulus; lia).
  split; [reflexivity|]. split; [exact Hk|]. split; [reflexivity|].
  apply (proj1 (IsHardforkEnabled_from_activation hardforkName
                  (scenarioContext (Some (blockAt 5)) 0 callflag.NoneFlag) (blockAt 5) hfA
                  eq_refl Hk)).
  reflexivity.
Defined.

(** ** The nonce seed *)

Lemma leValue_leBytes n : forall v, binary.leValue (binary.leBytes n v) = v mod 256 ^ Z.of_nat n.
Proof.
  induction n as [|n IH]; intros v.
  - cbn. rewrite Z.mod_1_r. reflexivity.
  - cbn [binary.leBytes binary.leValue]. rewrite IH.
    rewrite Nat2Z.inj_succ, Z.pow_succ_r by lia.
    rewrite (Z.rem_mul_r v 256 (256 ^ Z.of_nat n)) by lia. reflexivity.
Qed.

Lemma byte_low b x : isByte b -> (b + 256 * x) mod 256 = b.
Proof.
  intros Hb. rewrite (Z.mul_comm 256 x), Z_mod_plus_full. apply Z.mod_small. exact Hb.
Qed.

Lemma byte_high b x : isByte b -> (b + 256 * x) / 256 = x.
Proof.
  intros Hb. rewrite (Z.mul_comm 256 x), Z_div_plus_full by lia.
  rewrite (Z.div_small b 256) by exact Hb. lia.
Qed.

Lemma leBytes_leValue bs :
  Forall isByte bs -> binary.leBytes (length bs) (binary.leValue bs) = bs.
Proof.
  induction 1 as [|b bs Hb _ IH]; [reflexivity|].
  cbn [length binary.leBytes binary.leValue].
  rewrite (byte_low b _ Hb), (byte_high b _ Hb), IH. reflexivity.
Qed.

Lemma leValue_range bs :
  Forall isByte bs -> 0 <= binary.leValue bs < 256 ^ Z.of_nat (length bs).
Proof.
  induction 1 as [|b bs Hb _ IH]; [cbn; lia|].
  cbn [length binary.leValue]. unfold isByte in Hb.
  rewrite Nat2Z.inj_succ, Z.pow_succ_r by lia. lia.
Qed.

Lemma leBytes_length n : forall v, length (binary.leBytes n v) = n.
Proof. induction n as [|n IH]; intros v; cbn; [reflexivity|]. rewrite IH. reflexivity. Qed.

Lemma leBytes_isByte n : forall v, Forall isByte (binary.leBytes n v).
Proof.
  induction n as [|n IH]; intros v; cbn; constructor; [|apply IH].
  unfold isByte. apply Z.mod_pos_bound. lia.
Qed.

Lemma lxor_range a b n :
  0 <= n -> 0 <= a < 2 ^ n -> 0 <= b < 2 ^ n -> 0 <= Z.lxor a b < 2 ^ n.
Proof.
  intros Hn Ha Hb.
  assert (H0 : 0 <= Z.lxor a b) by (apply Z.lxor_nonneg; lia).
  split; [exact H0|].
  destruct (Z.eq_dec (Z.lxor a b) 0) as [->|Hne]; [apply Z.pow_pos_nonneg; lia|].
  assert (Hpos : 0 < n).
  { destruct (Z.eq_dec n 0) as [->|]; [|lia]. exfalso. change (2 ^ 0) with 1 in Ha, Hb.
    assert (a = 0) by lia. assert (b = 0) by lia. subst. apply Hne. reflexivity. }
  apply Z.log2_lt_pow2; [lia|].
  eapply Z.le_lt_trans; [apply Z.log2_lxor; lia|].
  apply Z.max_lub_lt.
  - destruct (Z.eq_dec a 0) as [->|]; [cbn; lia|]. apply Z.log2_lt_pow2; lia.
  - destruct (Z.eq_dec b 0) as [->|]; [cbn; lia|]. apply Z.log2_lt_pow2; lia.
Qed.

Lemma Uint64_PutUint64 b v :
  0 <= v < 2 ^ 64 -> binary.Uint64 (binary.PutUint64 b v) = v.
Proof.
  intros Hv. unfold binary.Uint64, binary.PutUint64.
  rewrite take_app_length' by (rewrite leBytes_length; reflexivity).
  rewrite leValue_leBytes. apply Z.mod_small. exact Hv.
Qed.

Lemma Uint64_range b :
  Forall isByte b -> (8 <= length b)%nat -> 0 <= binary.Uint64 b < 2 ^ 64.
Proof.
  intros Hb Hlen. unfold binary.Uint64.
  assert (Ht : Forall isByte (take 8 b)) by (apply Forall_take; exact Hb).
  pose proof (leValue_range (take 8 b) Ht) as H.
  rewrite length_take, Nat.min_l in H by lia. exact H.
Qed.

(** X18: when the container is a transaction whose hash has at least 16
    bytes, [InitNonceData] on the 16 bytes of [NonceData] does not depend
    on what they held: with no block it leaves the first 16 bytes of the
    hash; with a block whose nonce is a [uint64] it leaves 16 bytes whose
    last eight are bytes 8 to 15 of the hash and whose first eight, read
    as a little-endian [uint64], are the nonce xor the first eight bytes
    of the hash read the same way; a second call changes nothing. *)
Theorem InitNonceData_of_transaction ic h d :
  length d = 16%nat -> (16 <= length h)%nat -> Forall isByte h ->
  match Block ic with
  | None => InitNonceData ic (Some h) d = take 16 h
  | Some b =>
      0 <= block.Nonce b < 2 ^ 64 ->
      length (InitNonceData ic (Some h) d) = 16%nat /\
      drop 8 (InitNonceData ic (Some h) d) = drop 8 (take 16 h) /\
      binary.Uint64 (InitNonceData ic (Some h) d)
        = Z.lxor (block.Nonce b) (binary.Uint64 h)
  end /\
  InitNonceData ic (Some h) (InitNonceData ic (Some h) d) = InitNonceData ic (Some h) d.
Proof.
  intros Hd Hh Hbytes.
  assert (Hcopy : forall d', length d' = 16%nat -> copy_bytes d' h = take 16 h).
  { intros d' Hd'. unfold copy_bytes. rewrite Hd', drop_ge by lia. apply app_nil_r. }
  assert (Hlen : length (InitNonceData ic (Some h) d) = 16%nat).
  { unfold InitNonceData. rewrite (Hcopy d Hd). destruct (Block ic) as [b|].
    - unfold binary.PutUint64. rewrite length_app, leBytes_length, length_drop, length_take. lia.
    - rewrite length_take. lia. }
  split.
  - unfold InitNonceData in *. rewrite (Hcopy d Hd) in *. destruct (Block ic) as [b|]; [|reflexivity].
    intros Hn. split; [exact Hlen|]. split.
    + unfold binary.PutUint64. rewrite drop_app_length' by (rewrite leBytes_length; reflexivity). reflexivity.
    + assert (Hu : binary.Uint64 (take 16 h) = binary.Uint64 h).
      { unfold binary.Uint64. rewrite take_take. reflexivity. }
      rewrite Hu. apply Uint64_PutUint64. apply lxor_range; [lia|exact Hn|].
      apply Uint64_range; [exact Hbytes|lia].
  - unfold InitNonceData at 1 3. rewrite (Hcopy _ Hlen), (Hcopy d Hd). reflexivity.
Qed.

(** X19: when the container is not a transaction, [InitNonceData] with no
    block leaves [NonceData] as it is, and with a block whose nonce is a
    [uint64] it changes the first eight bytes only and undoes itself: a
    second call gives back the 16 bytes the first started from. *)
Theorem InitNonceData_without_transaction ic d :
  length d = 16%nat -> Forall isByte d ->
  match Block ic with
  | None => InitNonceData ic None d = d
  | Some b =>
      0 <= block.Nonce b < 2 ^ 64 ->
      drop 8 (InitNonceData ic None d) = drop 8 d /\
      binary.Uint64 (InitNonceData ic None d) = Z.lxor (block.Nonce b) (binary.Uint64 d) /\
      InitNonceData ic None (InitNonceData ic None d) = d
  end.
Proof.
  intros Hd Hbytes. unfold InitNonceData. destruct (Block ic) as [b|]; [|reflexivity].
  intros Hn.
  pose proof (Uint64_range d Hbytes ltac:(lia)) as Hu.
  pose proof (lxor_range _ _ 64 ltac:(lia) Hn Hu) as Hx.
  split; [|split].
  - unfold binary.PutUint64. rewrite drop_app_length' by (rewrite leBytes_length; reflexivity). reflexivity.
  - apply Uint64_PutUint64. exact Hx.
  - rewrite (Uint64_PutUint64 d _ Hx).
    rewrite <- Z.lxor_assoc, Z.lxor_nilpotent, Z.lxor_0_l.
    unfold binary.PutUint64 at 1 2.
    rewrite drop_app_length' by (rewrite leBytes_length; reflexivity).
    unfold binary.Uint64.
    replace 8%nat with (length (take 8 d)) at 1 by (rewrite length_take; lia).
    rewrite leBytes_leValue by (apply Forall_take; exact Hbytes).
    apply take_drop.
Qed.

Lemma txHashS6_bytes : Forall isByte txHashS6.
Proof. unfold txHashS6. repeat (constructor; [unfold isByte; lia|]). constructor. Qed.

Lemma nonceS6_bytes : Forall isByte nonceS6.
Proof. unfold nonceS6. repeat (constructor; [unfold isByte; lia|]). constructor. Qed.

Lemma InitNonceData_of_transaction_witness :
  length nonceS6 = 16%nat /\ (16 <= length txHashS6)%nat /\ Forall isByte txHashS6 /\
  InitNonceData contextS6 (Some txHashS6) (InitNonceData contextS6 (Some txHashS6) nonceS6)
    = InitNonceData contextS6 (Some txHashS6) nonceS6.
Proof.
  split; [reflexivity|]. split; [cbn; lia|]. split; [exact txHashS6_bytes|].
  apply (proj2 (InitNonceData_of_transaction contextS6 txHashS6 nonceS6 eq_refl
                  ltac:(cbn; lia) txHashS6_bytes)).
Defined.

Lemma InitNonceData_without_transaction_witness :
  length nonceS6 = 16%nat /\ Forall isByte nonceS6 /\
  0 <= 72623859790382856 < 2 ^ 64 /\
  InitNonceData contextS6 None (InitNonceData contextS6 None nonceS6) = nonceS6.
Proof.
  split; [reflexivity|]. split; [exact nonceS6_bytes|]. split; [lia|].
  apply (InitNonceData_without_transaction contextS6 nonceS6 eq_refl nonceS6_bytes). cbn. lia.
Defined.

(** Scenario S6: hash bytes 1 to 32 and the block nonce 0x0102030405060708. *)
Lemma InitNonceData_scenario_S6 :
  InitNonceData contextS6 (Some txHashS6) nonceS6
    = [9; 5; 5; 1; 1; 5; 5; 9; 9; 10; 11; 12; 13; 14; 15; 16].
Proof. reflexivity. Qed.

(** ** Teardown *)

Section TeardownFacts.
Variable World : Type.

Lemma registerHooks_state (fs : list (option (World -> World))) : forall s,
  cancelFuncs (registerHooks s fs) = cancelFuncs s ++ givenHooks fs /\
  world (registerHooks s fs) = world s.
Proof.
  induction fs as [|f fs IH]; intros s.
  - cbn. rewrite app_nil_r. auto.
  - change (registerHooks s (f :: fs)) with (registerHooks (RegisterCancelFunc s f) fs).
    destruct (IH (RegisterCancelFunc s f)) as [Hc Hw]. rewrite Hc, Hw.
    destruct f as [g|]; cbn; [rewrite <- app_assoc|]; auto.
Qed.

(** X20: [Finalize] after any run of [RegisterCancelFunc] calls runs the
    hooks that were already registered and then the hooks given that are
    not nil, each once, in the order of registration, and leaves no hook
    registered, so that a second [Finalize] changes nothing; [Exec]
    returns what the run of the VM returned, also a failure or a panic,
    after doing the same for the hooks registered before and during the
    run. *)
Theorem Finalize_runs_hooks_once (s : Teardown World) fs
  (Run : Teardown World -> outcome (option error) * Teardown World) :
  world (Finalize (registerHooks s fs))
    = fold_left (fun w f => f w) (cancelFuncs s ++ givenHooks fs) (world s) /\
  cancelFuncs (Finalize (registerHooks s fs)) = [] /\
  Finalize (Finalize (registerHooks s fs)) = Finalize (registerHooks s fs) /\
  (Exec Run s).1 = (Run s).1 /\
  (Exec Run s).2 = Finalize (Run s).2 /\
  Finalize (Exec Run s).2 = (Exec Run s).2.
Proof.
  destruct (registerHooks_state fs s) as [Hc Hw].
  unfold Finalize at 1 2. cbn [world cancelFuncs]. rewrite Hc, Hw.
  split; [reflexivity|]. split; [reflexivity|]. split; [reflexivity|].
  unfold Exec. destruct (Run s) as [res s']. repeat split.
Qed.

End TeardownFacts.

(** ** Materialisation over the store, continued *)

Section StoreMore.
Variable ToID : string -> Z.

(** The pointers of the table built are in the new store and differ from
    each other. *)
Lemma buildMethods_distinct hf ms : forall (h : Ptr.store) st h' st',
  Forall (fun e => is_Some (h !! Ptr.MD e)) st.2 ->
  NoDup (map Ptr.MD st.2) ->
  Ptr.buildMethods ToID hf ms h st = (h', Returns st') ->
  Forall (fun e => is_Some (h' !! Ptr.MD e)) st'.2 /\ NoDup (map Ptr.MD st'.2).
Proof.
  induction ms as [|m ms IH]; intros h st h' st' Hin Hnd; cbn [Ptr.buildMethods].
  - intros H. inversion H; subst. auto.
  - destruct (negb (isActive (Ptr.ActiveFrom m) hf)); [apply (IH h st h' st' Hin Hnd)|].
    destruct (h !! Ptr.MD (Ptr.HFSpecific m)) as [md|]; [|discriminate].
    destruct st as [[w abi] acc].
    rewrite insert_insert_eq, lookup_insert_eq.
    apply IH; cbn [snd] in *.
    + apply Forall_app. split.
      * eapply Forall_impl; [exact Hin|]. intros e [x Hx]. exists x.
        apply (lookup_weaken h); [exact Hx|]. apply insert_subseteq, fresh_unused.
      * apply Forall_singleton. cbn [Ptr.MD]. rewrite lookup_insert_eq. eauto.
    + rewrite fmap_app. apply NoDup_app. split; [exact Hnd|]. split.
      * intros l Hl Hl'. cbn in Hl'. apply list_elem_of_singleton in Hl'. subst l.
        apply list_elem_of_fmap in Hl as (e & He & Hin').
        rewrite Forall_forall in Hin. destruct (Hin e Hin') as [x Hx].
        rewrite <- He, fresh_unused in Hx. discriminate.
      * cbn. apply NoDup_singleton.
Qed.

(** X21: in the table that materialisation builds no two entries share a
    descriptor: each entry points to a copy of its own in the new store,
    also when two declarations of the contract point to one descriptor. *)
Theorem buildHFSpecificMD_copies_apart (c : Ptr.ContractMD) hf (h : Ptr.store) :
  match (Ptr.buildHFSpecificMD ToID c hf h).2 with
  | Returns (md, _) =>
      NoDup (map Ptr.MD (Ptr.HFMethods md)) /\
      Forall (fun e => is_Some ((Ptr.buildHFSpecificMD ToID c hf h).1 !! Ptr.MD e))
        (Ptr.HFMethods md)
  | Panics => True
  end.
Proof.
  unfold Ptr.buildHFSpecificMD.
  destruct (Ptr.buildMethods ToID hf (Ptr.Methods c) h ([], [], []))
    as [h' [[[w abi] acc]|]] eqn:Hb; [|exact I].
  destruct (fold_left (buildEvent hf) (Ptr.Events c) ([], [])) as [abiEvents events].
  cbn [fst snd Ptr.HFMethods].
  destruct (buildMethods_distinct hf (Ptr.Methods c) h ([], [], []) h' (w, abi, acc))
    as [Hin Hnd]; [constructor|constructor|exact Hb|]. auto.
Qed.



End StoreMore.


Lemma AddMethod_then_GetMethod_witness :
  ActiveFrom (declaration None) = None /\
  exists m,
    GetMethod
      (materialise callNativeID
         (registerSeq
            (AddMethod (registerSeq (NewContractMD nativeHash "S3" (-2) None)
                          [RegMethod (declaration None) (descriptor "copy" ["a"; "b"; "c"])])
               (declaration None) (descriptor "copy" ["a"; "b"]))
            [RegEvent (eventS2 "e1" None);
             RegMethod (declaration None) (descriptor "copy" ["a"])])
         (Some hfB))
      (manifest.Name (descriptor "copy" ["a"; "b"]))
      (Z.of_nat (length (manifest.Params (descriptor "copy" ["a"; "b"])))) = Some m /\
    methodName m = manifest.Name (descriptor "copy" ["a"; "b"]) /\
    paramCount m = length (manifest.Params (descriptor "copy" ["a"; "b"])).
Proof.
  split; [reflexivity|].
  exact (proj1 (AddMethod_then_GetMethod callNativeID nativeHash "S3" (-2) None
                  [RegMethod (declaration None) (descriptor "copy" ["a"; "b"; "c"])]
                  (declaration None) (descriptor "copy" ["a"; "b"])
                  [RegEvent (eventS2 "e1" None);
                   RegMethod (declaration None) (descriptor "copy" ["a"])]
                  (Some hfB) eq_refl)).
Defined.

(** ** Visibility of blocks *)

(** X23: [GetBlock] returns only blocks of the ledger whose index is at
    most [BlockHeight()], and a block that it returns in one context it
    returns in every context on the same ledger whose [BlockHeight()] is
    not smaller. *)
Theorem GetBlock_visibility_grows ic ic' h b :
  Chain ic' = Chain ic -> BlockHeight ic <= BlockHeight ic' ->
  GetBlock ic h = inl b ->
  LedgerGetBlock (Chain ic) h = inl b /\ block.Index b <= BlockHeight ic /\
  GetBlock ic' h = inl b.
Proof.
  intros Hc Hle. rewrite !GetBlock_cases, Hc.
  destruct (LedgerGetBlock (Chain ic) h) as [blk|err]; [|discriminate].
  destruct (Z.gtb_spec (block.Index blk) (BlockHeight ic)) as [|Hvis]; [discriminate|].
  intros H. inversion H; subst blk. split; [reflexivity|]. split; [exact Hvis|].
  destruct (Z.gtb_spec (block.Index b) (BlockHeight ic')); [lia|reflexivity].
Qed.

Lemma GetBlock_visibility_grows_witness :
  Chain (scenarioContext (Some (blockAt 9)) 0 callflag.NoneFlag)
    = Chain (scenarioContext (Some (blockAt 3)) 0 callflag.NoneFlag) /\
  BlockHeight (scenarioContext (Some (blockAt 3)) 0 callflag.NoneFlag)
    <= BlockHeight (scenarioContext (Some (blockAt 9)) 0 callflag.NoneFlag) /\
  GetBlock (scenarioContext (Some (blockAt 3)) 0 callflag.NoneFlag) 1002 = inl (blockAt 2) /\
  GetBlock (scenarioContext (Some (blockAt 9)) 0 callflag.NoneFlag) 1002 = inl (blockAt 2).
Proof.
  split; [reflexivity|]. split; [discriminate|]. split; [reflexivity|].
  apply (GetBlock_visibility_grows
           (scenarioContext (Some (blockAt 3)) 0 callflag.NoneFlag)
           (scenarioContext (Some (blockAt 9)) 0 callflag.NoneFlag) 1002 (blockAt 2)
           eq_refl); [discriminate|reflexivity].
Defined.

Section StoreCopies.
Variable ToID : string -> Z.




End StoreCopies.
